(** * scats: the persistent Vector, checked against its specification

    The development embeds the two Vector classes of the repository:

    - [TrieVector]: the 32-way trie with a tail buffer
      (root / tail / depth / _size, helpers getElem, updateElem, pushTail,
      removeFirst, mapNode);
    - [ArrayVector]: the array-backed class of src/vector/Vector.ts;

    together with Option.ts: the part that [get] goes through ([Some],
    [SomeImpl], [None]) in [Option], its methods and namespace functions
    in [OptionOps].

    Conventions of the embedding.
    - JavaScript numbers used as indices, sizes, depths and levels are
      integers ([Z]); the 32-bit operators [&], [>>], [>>>], [<<] are written
      out with their ToInt32 / ToUint32 conversions and 5-bit shift counts.
    - A call returns an [outcome]: a value, a thrown exception, or
      [OutOfFuel] when the recursion has not come back after [fuel] nested
      calls.  The recursive helpers take the fuel; a call that is
      [OutOfFuel] for every fuel never returns (an engine ends it with
      "RangeError: Maximum call stack size exceeded").
    - The callbacks handed to map / filter / flatMap are pure functions. *)

From stdpp Require Import base list.
From Stdlib Require Import ZArith Lia.

Local Open Scope Z_scope.

(** ** JavaScript 32-bit integer operators *)

Module JS.

Definition toInt32 (x : Z) : Z := (x + 2 ^ 31) mod 2 ^ 32 - 2 ^ 31.
Definition toUint32 (x : Z) : Z := x mod 2 ^ 32.

(** The shift count of [<<], [>>] and [>>>] is taken modulo 32. *)
Definition shiftCount (n : Z) : Z := toUint32 n mod 32.

(** [x & y] *)
Definition and (x y : Z) : Z := Z.land (toInt32 x) (toInt32 y).
(** [x >> n] *)
Definition shr (x n : Z) : Z := Z.shiftr (toInt32 x) (shiftCount n).
(** [x >>> n] *)
Definition ushr (x n : Z) : Z := Z.shiftr (toUint32 x) (shiftCount n).
(** [x << n] *)
Definition shl (x n : Z) : Z := toInt32 (Z.shiftl (toInt32 x) (shiftCount n)).

(** [arr[i]]: [None] stands for [undefined] (index outside the array). *)
Definition index {X : Type} (arr : list X) (i : Z) : option X :=
  if i <? 0 then None else arr !! Z.to_nat i.

(** [arr.length] *)
Definition length {X : Type} (arr : list X) : Z := Z.of_nat (List.length arr).

(** The values a callback or an element type may take that JavaScript
    treats as [null] or [undefined]. *)
Class Nullish (A : Type) := is_nullish : A -> bool.

(** Elements of a type [X | null | undefined]. *)
Inductive nullable (X : Type) : Type :=
  | null
  | undefined
  | just (x : X).
Arguments null {X}.
Arguments undefined {X}.
Arguments just {X} x.

#[global] Instance nullable_nullish {X} : Nullish (nullable X) :=
  fun v => match v with just _ => false | _ => true end.

(** Numbers are never nullish. *)
#[global] Instance Z_nullish : Nullish Z := fun _ => false.

End JS.

(** ** Outcomes of a call *)

Inductive error : Type :=
  | IndexOutOfBounds (index : Z)
      (** [throw new Error(`Index out of bounds: ${index}`)] *)
  | SomeOfNullish
      (** [throw new Error("Cannot create Some with null or undefined value")] *)
  | TypeError
      (** property access on [undefined] or [null] *)
  | CastViolation.
      (** a cell is not of the kind the source's unchecked [as A] /
          [as Node<A>] cast says; execution outside the static types is
          not followed further *)

Inductive outcome (T : Type) : Type :=
  | Ret (t : T)
  | Throw (e : error)
  | OutOfFuel.
Arguments Ret {T} t.
Arguments Throw {T} e.
Arguments OutOfFuel {T}.

#[export] Instance outcome_ret : MRet outcome := @Ret.
#[export] Instance outcome_bind : MBind outcome := fun A B f m =>
  match m with
  | Ret a => f a
  | Throw e => Throw e
  | OutOfFuel => OutOfFuel
  end.

(** [for (let i = 0; i < n; i++) acc = body(i, acc)] *)
Fixpoint forUpTo {S : Type} (n : nat) (body : Z -> S -> outcome S) (acc : S)
  : outcome S :=
  match n with
  | O => Ret acc
  | S n' => acc' ← forUpTo n' body acc; body (Z.of_nat n') acc'
  end.

(** [for (const x of xs) acc = body(x, acc)] *)
Fixpoint forOf {X S : Type} (xs : list X) (body : X -> S -> outcome S) (acc : S)
  : outcome S :=
  match xs with
  | [] => Ret acc
  | x :: xs' => acc' ← body x acc; forOf xs' body acc'
  end.

(** ** Option.ts: the part used by Vector.get *)

Module Option.

Inductive Option (A : Type) : Type :=
  | SomeImpl (value : A)
  | NoneImpl.
Arguments SomeImpl {A} value.
Arguments NoneImpl {A}.

(** [new SomeImpl(value)]: the constructor refuses null and undefined. *)
Definition newSomeImpl {A} `{JS.Nullish A} (value : A) : outcome (Option A) :=
  if JS.is_nullish value then Throw SomeOfNullish else Ret (SomeImpl value).

(** [export const None = new NoneImpl()] *)
Definition None {A} : Option A := NoneImpl.

(** [export function Some<A>(value: A): Option<A>] *)
Definition Some {A} `{JS.Nullish A} (value : A) : outcome (Option A) :=
  if JS.is_nullish value then Ret None else newSomeImpl value.

Definition isSome {A} (o : Option A) : bool :=
  match o with SomeImpl _ => true | NoneImpl => false end.
Definition isNone {A} (o : Option A) : bool :=
  match o with SomeImpl _ => false | NoneImpl => true end.

End Option.

(** ** The trie-based Vector *)

Module TrieVector.

(** [const BITS = 5; const WIDTH = 1 << BITS; const MASK = WIDTH - 1;] *)
Definition BITS : Z := 5.
Definition WIDTH : Z := Eval cbv in JS.shl 1 BITS.
Definition MASK : Z := Eval cbv in WIDTH - 1.

(** [class Node<A> { constructor(readonly array: Array<A | Node<A>>) }].
    A cell of the array holds a stored value, a sub-node, [null] (written
    by mapNode), the value [undefined], or nothing at all (a hole, left by
    an assignment past the end of the array). *)
Inductive Node (A : Type) : Type :=
  | MkNode (array : list (Cell A))
with Cell (A : Type) : Type :=
  | CVal (a : A)
  | CNode (n : Node A)
  | CNull
  | CUndef
  | CHole.
Arguments MkNode {A} array.
Arguments CVal {A} a.
Arguments CNode {A} n.
Arguments CNull {A}.
Arguments CUndef {A}.
Arguments CHole {A}.

Definition array {A} (node : Node A) : list (Cell A) :=
  match node with MkNode arr => arr end.

(** [[...node.array]]: the copy reads every index, so a hole of the
    original is the value [undefined] in the copy. *)
Definition spread {A} (arr : list (Cell A)) : list (Cell A) :=
  (fun c => match c with CHole => CUndef | _ => c end) <$> arr.

(** [newArray[i] = c]: inside the array the cell is replaced, past its end
    the array grows and the cells in between are holes; a negative [i]
    would set a property and leave the cells alone. *)
Definition assign {A} (arr : list (Cell A)) (i : Z) (c : Cell A) : list (Cell A) :=
  if i <? 0 then arr
  else if i <? JS.length arr then <[Z.to_nat i := c]> arr
  else arr ++ replicate (Z.to_nat i - List.length arr)%nat CHole ++ [c].

(** [cell as Node<A>], followed by the first use of the node. *)
Definition asNode {A} (cell : option (Cell A)) : outcome (Node A) :=
  match cell with
  | Some (CNode n) => Ret n
  | Some (CVal _) => Throw CastViolation
  | Some CNull | Some CUndef | Some CHole | None => Throw TypeError
  end.

(** [cell as A] *)
Definition asElem {A} (cell : option (Cell A)) : outcome A :=
  match cell with
  | Some (CVal a) => Ret a
  | _ => Throw CastViolation
  end.

Record Vector (A : Type) : Type := MkVector {
  root : Node A;
  tail : list A;
  depth : Z;
  _size : Z
}.
Arguments MkVector {A} root tail depth _size.
Arguments root {A} v.
Arguments tail {A} v.
Arguments depth {A} v.
Arguments _size {A} v.

Section Operations.

Context {A : Type}.

Definition size (this : Vector A) : Z := _size this.

Definition isEmpty (this : Vector A) : bool := _size this =? 0.

Fixpoint getElem (fuel : nat) (node : Node A) (index level : Z) : outcome A :=
  match fuel with
  | O => OutOfFuel
  | S fuel' =>
    if level =? 0 then
      asElem (JS.index (array node) (JS.and index MASK))
    else
      let subIndex := JS.and (JS.shr index (level * BITS)) MASK in
      child ← asNode (JS.index (array node) subIndex);
      getElem fuel' child index (level - 1)
  end.

Definition apply (fuel : nat) (this : Vector A) (index : Z) : outcome A :=
  if (index <? 0) || (index >=? _size this) then
    Throw (IndexOutOfBounds index)
  else
    let tailOffset := _size this - JS.length (tail this) in
    if index >=? tailOffset then
      (* tailOffset <= index < _size: the read is inside the tail *)
      match JS.index (tail this) (index - tailOffset) with
      | Some a => Ret a
      | None => Throw CastViolation
      end
    else
      getElem fuel (root this) index (depth this).

Definition get `{JS.Nullish A} (fuel : nat) (this : Vector A) (index : Z)
  : outcome (Option.Option A) :=
  if (index <? 0) || (index >=? _size this) then
    Ret Option.None
  else
    a ← apply fuel this index; Option.Some a.

Fixpoint updateElem (fuel : nat) (node : Node A) (index : Z) (elem : A) (level : Z)
  : outcome (Node A) :=
  match fuel with
  | O => OutOfFuel
  | S fuel' =>
    let newArray := spread (array node) in
    if level =? 0 then
      Ret (MkNode (assign newArray (JS.and index MASK) (CVal elem)))
    else
      let subIndex := JS.and (JS.shr index (level * BITS)) MASK in
      child ← asNode (JS.index (array node) subIndex);
      newChild ← updateElem fuel' child index elem (level - 1);
      Ret (MkNode (assign newArray subIndex (CNode newChild)))
  end.

Definition updated (fuel : nat) (this : Vector A) (index : Z) (elem : A)
  : outcome (Vector A) :=
  if (index <? 0) || (index >=? _size this) then
    Ret this
  else
    let tailOffset := _size this - JS.length (tail this) in
    if index >=? tailOffset then
      (* 0 <= index - tailOffset < tail.length, so the write replaces a cell *)
      let newTail := <[Z.to_nat (index - tailOffset) := elem]> (tail this) in
      Ret (MkVector (root this) newTail (depth this) (_size this))
    else
      newRoot ← updateElem fuel (root this) index elem (depth this);
      Ret (MkVector newRoot (tail this) (depth this) (_size this)).

Fixpoint pushTail (fuel : nat) (node : Node A) (index : Z) (tailNode : Node A)
  (level : Z) : outcome (Node A) :=
  match fuel with
  | O => OutOfFuel
  | S fuel' =>
    let subIndex := JS.and (JS.shr index (level * BITS)) MASK in
    let newArray := spread (array node) in
    if level =? 1 then
      Ret (MkNode (assign newArray subIndex (CNode tailNode)))
    else
      child ← (if subIndex <? JS.length (array node)
               then asNode (JS.index (array node) subIndex)
               else Ret (MkNode []));
      newChild ← pushTail fuel' child index tailNode (level - 1);
      Ret (MkNode (assign newArray subIndex (CNode newChild)))
  end.

Definition appended (fuel : nat) (this : Vector A) (elem : A) : outcome (Vector A) :=
  if JS.length (tail this) <? WIDTH then
    Ret (MkVector (root this) (tail this ++ [elem]) (depth this) (_size this + 1))
  else
    let tailIndex := _size this - WIDTH in
    let grow := JS.ushr tailIndex (BITS * depth this) >? 0 in
    let newRoot := if grow then MkNode [CNode (root this)] else root this in
    let newDepth := if grow then depth this + 1 else depth this in
    newRoot ← pushTail fuel newRoot tailIndex (MkNode (CVal <$> tail this)) newDepth;
    Ret (MkVector newRoot [elem] newDepth (_size this + 1)).

Definition empty : Vector A := MkVector (MkNode []) [] 0 0.

(** [static of<A>(...elements: A[])]; [of] is a reserved word here, hence
    the name. *)
Definition of_ (fuel : nat) (elements : list A) : outcome (Vector A) :=
  if JS.length elements =? 0 then Ret empty
  else if JS.length elements <=? WIDTH then
    Ret (MkVector (MkNode []) elements 0 (JS.length elements))
  else
    forOf elements (fun elem vector => appended fuel vector elem) empty.

Definition from (fuel : nat) (array : list A) : outcome (Vector A) :=
  of_ fuel array.

Definition appendAll (fuel : nat) (this that : Vector A) : outcome (Vector A) :=
  if isEmpty that then Ret this
  else if isEmpty this then Ret that
  else
    forUpTo (Z.to_nat (size that))
      (fun i result => x ← apply fuel that i; appended fuel result x)
      this.

Fixpoint removeFirst (fuel : nat) (node : Node A) (level : Z) : outcome (Node A) :=
  match fuel with
  | O => OutOfFuel
  | S fuel' =>
    if level =? 0 then
      Ret (MkNode (drop 1 (spread (array node))))
    else
      let newArray := spread (array node) in
      child ← asNode (JS.index (array node) 0);
      newChild ← removeFirst fuel' child (level - 1);
      Ret (MkNode (assign newArray 0 (CNode newChild)))
  end.

Definition prepended (fuel : nat) (this : Vector A) (elem : A) : outcome (Vector A) :=
  if isEmpty this then of_ fuel [elem]
  else if JS.length (tail this) =? WIDTH then
    one ← of_ fuel [elem]; appendAll fuel one this
  else
    let tailOffset := _size this - JS.length (tail this) in
    if tailOffset =? 0 then
      Ret (MkVector (root this) (elem :: tail this) (depth this) (_size this + 1))
    else
      first ← apply fuel this 0;
      newRoot ← removeFirst fuel (root this) (depth this);
      Ret (MkVector newRoot (elem :: tail this) (depth this) (_size this + 1)).

Definition filter (fuel : nat) (this : Vector A) (p : A -> bool) : outcome (Vector A) :=
  if isEmpty this then Ret this
  else
    forUpTo (Z.to_nat (_size this))
      (fun i result =>
         elem ← apply fuel this i;
         if p elem then appended fuel result elem else Ret result)
      empty.

Definition toArray (fuel : nat) (this : Vector A) : outcome (list A) :=
  forUpTo (Z.to_nat (_size this))
    (fun i result => x ← apply fuel this i; Ret (result ++ [x]))
    [].

End Operations.

Section Transformations.

Context {A B : Type}.

(** [node.array.map(g)]: the callback runs on every cell in order, holes
    are skipped and stay holes. *)
Fixpoint mapCells (g : Cell A -> outcome (Cell B)) (cells : list (Cell A))
  : outcome (list (Cell B)) :=
  match cells with
  | [] => Ret []
  | c :: cells' =>
    c' ← (match c with CHole => Ret CHole | _ => g c end);
    cs' ← mapCells g cells';
    Ret (c' :: cs')
  end.

Fixpoint mapNode (fuel : nat) (node : Node A) (f : A -> B) (level : Z)
  : outcome (Node B) :=
  match fuel with
  | O => OutOfFuel
  | S fuel' =>
    if level =? 0 then
      cells ← mapCells (fun a => x ← asElem (Some a); Ret (CVal (f x))) (array node);
      Ret (MkNode cells)
    else
      cells ← mapCells (fun child =>
                 match child with
                 | CNode n => n' ← mapNode fuel' n f (level - 1); Ret (CNode n')
                 | CNull | CUndef | CHole => Ret CNull
                 | CVal _ => Throw CastViolation
                 end) (array node);
      Ret (MkNode cells)
  end.

Definition map (fuel : nat) (this : Vector A) (f : A -> B) : outcome (Vector B) :=
  let newTail := f <$> tail this in
  if _size this =? JS.length (tail this) then
    Ret (MkVector (MkNode []) newTail 0 (_size this))
  else
    newRoot ← mapNode fuel (root this) f (depth this);
    Ret (MkVector newRoot newTail (depth this) (_size this)).

Definition flatMap (fuel : nat) (this : Vector A) (f : A -> Vector B)
  : outcome (Vector B) :=
  if isEmpty this then Ret empty
  else
    forUpTo (Z.to_nat (_size this))
      (fun i result => x ← apply fuel this i; appendAll fuel result (f x))
      empty.

End Transformations.

End TrieVector.

(** ** The array-backed Vector (src/vector/Vector.ts) *)

Module ArrayVector.

Record Vector (A : Type) : Type := MkVector { data : list A }.
Arguments MkVector {A} data.
Arguments data {A} v.

Section Operations.

Context {A : Type}.

Definition size (this : Vector A) : Z := JS.length (data this).

Definition isEmpty (this : Vector A) : bool := JS.length (data this) =? 0.

Definition apply (this : Vector A) (index : Z) : outcome A :=
  if (index <? 0) || (index >=? JS.length (data this)) then
    Throw (IndexOutOfBounds index)
  else
    match JS.index (data this) index with
    | Some a => Ret a
    | None => Throw CastViolation
    end.

Definition get `{JS.Nullish A} (this : Vector A) (index : Z)
  : outcome (Option.Option A) :=
  if (index <? 0) || (index >=? JS.length (data this)) then
    Ret Option.None
  else
    match JS.index (data this) index with
    | Some a => Option.Some a
    | None => Throw CastViolation
    end.

Definition updated (this : Vector A) (index : Z) (elem : A) : Vector A :=
  if (index <? 0) || (index >=? JS.length (data this)) then
    this
  else
    MkVector (<[Z.to_nat index := elem]> (data this)).

Definition appended (this : Vector A) (elem : A) : Vector A :=
  MkVector (data this ++ [elem]).

Definition prepended (this : Vector A) (elem : A) : Vector A :=
  MkVector (elem :: data this).

Definition appendAll (this that : Vector A) : Vector A :=
  MkVector (data this ++ data that).

Definition filter (this : Vector A) (p : A -> bool) : Vector A :=
  MkVector (List.filter p (data this)).

Definition toArray (this : Vector A) : list A := data this.

Definition of_ (elements : list A) : Vector A := MkVector elements.

Definition empty : Vector A := MkVector [].

Definition from (array : list A) : Vector A := MkVector array.

End Operations.

Definition map {A B} (this : Vector A) (f : A -> B) : Vector B :=
  MkVector (f <$> data this).

(** [for (const elem of this.data) result.push(...f(elem).data)] *)
Definition flatMap {A B} (this : Vector A) (f : A -> Vector B) : Vector B :=
  MkVector (List.fold_left (fun result elem => result ++ data (f elem)) (data this) []).

End ArrayVector.

(** ** Vectors that the public interface can produce

    The constructor of the class is private: a Vector value is what
    [empty], [of], [from] return and what the methods return on such
    values.  The callback of flatMap returns Vectors of the same kind. *)

Module Reach.

Import TrieVector.

Inductive reachable : forall {A : Type}, Vector A -> Prop :=
  | reach_empty {A} :
      reachable (@empty A)
  | reach_of {A} fuel (elements : list A) v :
      of_ fuel elements = Ret v -> reachable v
  | reach_from {A} fuel (arr : list A) v :
      from fuel arr = Ret v -> reachable v
  | reach_updated {A} fuel (this : Vector A) index elem v :
      reachable this -> updated fuel this index elem = Ret v -> reachable v
  | reach_appended {A} fuel (this : Vector A) elem v :
      reachable this -> appended fuel this elem = Ret v -> reachable v
  | reach_prepended {A} fuel (this : Vector A) elem v :
      reachable this -> prepended fuel this elem = Ret v -> reachable v
  | reach_appendAll {A} fuel (this that : Vector A) v :
      reachable this -> reachable that ->
      appendAll fuel this that = Ret v -> reachable v
  | reach_filter {A} fuel (this : Vector A) p v :
      reachable this -> filter fuel this p = Ret v -> reachable v
  | reach_map {A B} fuel (this : Vector A) (f : A -> B) v :
      reachable this -> map fuel this f = Ret v -> reachable v
  | reach_flatMap {A B} fuel (this : Vector A) (f : A -> Vector B) v :
      reachable this ->
      (forall i a, apply fuel this i = Ret a -> reachable (f a)) ->
      flatMap fuel this f = Ret v -> reachable v.

(** The Vector that keeps all of [l] in its tail: empty root, depth 0. *)
Definition tailVec {A} (l : list A) : Vector A :=
  MkVector (MkNode []) l 0 (JS.length l).

Definition tail_only {A} (v : Vector A) : Prop :=
  v = tailVec (tail v) /\ (length (tail v) <= 32)%nat.

(** Number of values stored in a sub-trie. *)
Fixpoint stored {A} (node : Node A) : nat :=
  match node with
  | MkNode cells =>
    (fix sum (cs : list (Cell A)) : nat :=
       match cs with
       | [] => O
       | c :: cs' =>
         (match c with
          | CVal _ => 1%nat
          | CNode n => stored n
          | CNull | CUndef | CHole => O
          end + sum cs')%nat
       end) cells
  end.

(** The invariants of the data model that relate tail, size and trie. *)
Definition invariant {A} (v : Vector A) : Prop :=
  0 <= JS.length (tail v) <= 32 /\
  _size v - JS.length (tail v) = Z.of_nat (stored (root v)) /\
  (_size v - JS.length (tail v)) mod 32 = 0.

(** [1, 2, ..., n] *)
Definition oneTo (n : nat) : list Z := seqZ 1 (Z.of_nat n).

(** The Vector that the scenario Vector.of(1..32).appended(33) describes as
    its result: the old tail as the single leaf under the root, tail [33]. *)
Definition scenarioResult : Vector Z :=
  MkVector (MkNode [CNode (MkNode (CVal <$> oneTo 32))]) [33] 1 33.

(** The array-backed Vector with the same elements as a tail-only
    trie-based one. *)
Definition toArrayVector {A} (v : Vector A) : ArrayVector.Vector A :=
  ArrayVector.MkVector (tail v).

(** Digit [k] of [i] in base 32, the way the helpers extract it:
    [(index >> (level * BITS)) & MASK]. *)
Definition digit (i : Z) (k : nat) : Z :=
  JS.and (JS.shr i (Z.of_nat k * BITS)) MASK.

(** The shape the data model asks of a Vector with a trie: at most six
    levels (so that every index fits the 32-bit operators), the trie part
    within the capacity of the depth, and a path to a stored value for
    every index of the trie part. *)
Definition well_formed {A} (v : Vector A) : Prop :=
  0 <= depth v <= 5 /\
  0 <= _size v - JS.length (tail v) <= 32 ^ (depth v + 1) /\
  forall i, 0 <= i < _size v - JS.length (tail v) ->
    exists x, getElem (S (Z.to_nat (depth v))) (root v) i (depth v) = Ret x.

(** The value the data model stores under the path of [i]: at each level
    from [level] down to 0 the child at the base-32 digit of [i]. *)
Fixpoint leafAt {A} (level : nat) (node : Node A) (i : Z) : option A :=
  match level, array node !! Z.to_nat ((i / 32 ^ Z.of_nat level) mod 32) with
  | O, Some (CVal a) => Some a
  | S level', Some (CNode child) => leafAt level' child i
  | _, _ => None
  end.

(** The element a Vector stores at index [i]: in the tail from the tail
    offset on, under the path of [i] in the trie before it. *)
Definition storedAt {A} (v : Vector A) (i : Z) : option A :=
  let tailOffset := _size v - JS.length (tail v) in
  if decide (tailOffset <= i) then tail v !! Z.to_nat (i - tailOffset)
  else leafAt (Z.to_nat (depth v)) (root v) i.

(** A Vector as the data model describes it, said without the code: at
    most six levels, the trie part within the capacity of the depth, and a
    value stored under the path of every index of the trie part. *)
Definition well_stored {A} (v : Vector A) : Prop :=
  0 <= depth v <= 5 /\
  0 <= _size v - JS.length (tail v) <= 32 ^ (depth v + 1) /\
  forall i, 0 <= i < _size v - JS.length (tail v) ->
    is_Some (leafAt (Z.to_nat (depth v)) (root v) i).

(** An outcome that is the out-of-bounds error of apply. *)
Definition raises_out_of_range {T} (o : outcome T) : Prop :=
  exists index, o = Throw (IndexOutOfBounds index).

(** The Vector of the scenario over elements that may be null: null sits
    at index 1, inside the trie. *)
Definition scenarioNullable : Vector (JS.nullable Z) :=
  MkVector
    (MkNode [CNode (MkNode (CVal <$> (JS.just 1 :: JS.null :: (JS.just <$> seqZ 3 30))))])
    [JS.just 33] 1 33.

End Reach.

(** ** Option.ts: the methods of SomeImpl and NoneImpl and the Option namespace

    A method is a function of the receiver; the SomeImpl and NoneImpl
    bodies are its two cases.  A callback that returns an Option returns an
    [outcome], so that it can be written with [Some]; the other callbacks
    are pure.  [getOrElse] and [orElse] are taken at one type (their
    result type [A | B] with B = A). *)

Module OptionOps.

Import Option.

(** An array is an object: never null or undefined. *)
#[global] Instance list_nullish {X} : JS.Nullish (list X) := fun _ => false.

(** What the SomeImpl constructor enforces on its value. *)
Definition valid {A} `{JS.Nullish A} (o : Option A) : Prop :=
  match o with
  | SomeImpl value => JS.is_nullish value = false
  | NoneImpl => True
  end.

Section Getters.

(** The Error object [new Error("Cannot get value from None")]. *)
Context (cannotGetValueFromNone : error).

Context {A : Type}.

Definition get (this : Option A) : outcome A :=
  match this with
  | SomeImpl value => Ret value
  | NoneImpl => Throw cannotGetValueFromNone
  end.

Definition getOrThrow (this : Option A) (err : error) : outcome A :=
  match this with
  | SomeImpl value => Ret value
  | NoneImpl => Throw err
  end.

(** The loop of [Option.sequence]; [values] is the array filled so far. *)
Fixpoint sequenceFrom (options : list (Option A)) (values : list A)
  : outcome (Option (list A)) :=
  match options with
  | [] => Some values
  | option :: rest =>
    if isNone option then Ret None
    else value ← get option; sequenceFrom rest (values ++ [value])
  end.

Definition sequence (options : list (Option A)) : outcome (Option (list A)) :=
  sequenceFrom options [].

End Getters.

Section Methods.

Context {A : Type}.

Definition getOrElse (this : Option A) (defaultValue : A) : A :=
  match this with
  | SomeImpl value => value
  | NoneImpl => defaultValue
  end.

Definition orElse (this alternative : Option A) : Option A :=
  match this with
  | SomeImpl _ => this
  | NoneImpl => alternative
  end.

Definition filter (this : Option A) (predicate : A -> bool) : Option A :=
  match this with
  | SomeImpl value => if predicate value then this else None
  | NoneImpl => this
  end.

Definition toArray (this : Option A) : list A :=
  match this with
  | SomeImpl value => [value]
  | NoneImpl => []
  end.

Definition map {B} `{JS.Nullish B} (this : Option A) (f : A -> B)
  : outcome (Option B) :=
  match this with
  | SomeImpl value => Some (f value)
  | NoneImpl => Ret NoneImpl
  end.

Definition mapOr {B} `{JS.Nullish B} (this : Option A) (defaultValue : B) (f : A -> B)
  : outcome (Option B) :=
  match this with
  | SomeImpl value => Some (f value)
  | NoneImpl => Some defaultValue
  end.

Definition flatMap {B} (this : Option A) (f : A -> outcome (Option B))
  : outcome (Option B) :=
  match this with
  | SomeImpl value => f value
  | NoneImpl => Ret NoneImpl
  end.

(** [Option.fromNullable] *)
Definition fromNullable `{JS.Nullish A} (value : A) : outcome (Option A) :=
  if JS.is_nullish value then Ret None else Some value.

(** [Option.tryCatch]; the callback takes no argument, so it is its outcome. *)
Definition tryCatch `{JS.Nullish A} (f : outcome A) : outcome (Option A) :=
  match f with
  | Ret a =>
    match Some a with
    | Throw _ => Ret None
    | r => r
    end
  | Throw _ => Ret None
  | OutOfFuel => OutOfFuel
  end.

(** [Option.firstSome] *)
Fixpoint firstSome (options : list (Option A)) : Option A :=
  match options with
  | [] => None
  | option :: rest => if isSome option then option else firstSome rest
  end.

End Methods.

(** [values.map(f)] with a callback that may throw. *)
Fixpoint mapCalls {A B} (f : A -> outcome B) (values : list A) : outcome (list B) :=
  match values with
  | [] => Ret []
  | a :: rest => b ← f a; bs ← mapCalls f rest; Ret (b :: bs)
  end.

(** [Option.traverse] *)
Definition traverse {A B} (cannotGetValueFromNone : error)
  (values : list A) (f : A -> outcome (Option B)) : outcome (Option (list B)) :=
  options ← mapCalls f values; sequence cannotGetValueFromNone options.

End OptionOps.

(** ** Lemmas on the 32-bit operators *)

Lemma toInt32_small (x : Z) : - 2 ^ 31 <= x < 2 ^ 31 -> JS.toInt32 x = x.
Proof.
  intros Hx. unfold JS.toInt32.
  rewrite Z.mod_small; lia.
Qed.

Lemma and_MASK_mod (x : Z) : JS.and x TrieVector.MASK = JS.toInt32 x mod 32.
Proof.
  unfold JS.and, TrieVector.MASK.
  rewrite (toInt32_small 31) by lia.
  apply (Z.land_ones (JS.toInt32 x) 5). lia.
Qed.

Lemma and_MASK_range (x : Z) : 0 <= JS.and x TrieVector.MASK <= 31.
Proof.
  rewrite and_MASK_mod.
  pose proof (Z.mod_pos_bound (JS.toInt32 x) 32). lia.
Qed.

Lemma and_MASK_small (x : Z) : 0 <= x <= 31 -> JS.and x TrieVector.MASK = x.
Proof.
  intros Hx. rewrite and_MASK_mod, toInt32_small by lia.
  apply Z.mod_small. lia.
Qed.

Lemma ushr_zero (n : Z) : JS.ushr 0 n = 0.
Proof. unfold JS.ushr. apply Z.shiftr_0_l. Qed.

(** ** Base-32 digits of an index *)

Section Digits.

Import TrieVector Reach.

Lemma shiftCount_small (n : Z) : 0 <= n < 32 -> JS.shiftCount n = n.
Proof.
  intros Hn. unfold JS.shiftCount, JS.toUint32.
  rewrite (Z.mod_small n (2 ^ 32)) by lia. apply Z.mod_small. lia.
Qed.

Lemma digit_land (i : Z) (k : nat) :
  0 <= i < 2 ^ 31 -> (k <= 5)%nat ->
  digit i k = Z.land (Z.shiftr i (5 * Z.of_nat k)) 31.
Proof.
  intros Hi Hk. unfold digit, JS.and, JS.shr, BITS, MASK.
  rewrite (toInt32_small i), (toInt32_small 31), shiftCount_small by lia.
  rewrite (Z.mul_comm (Z.of_nat k) 5).
  rewrite toInt32_small; [reflexivity|].
  assert (0 <= Z.shiftr i (5 * Z.of_nat k) <= i).
  { rewrite Z.shiftr_div_pow2 by lia.
    pose proof (Z.pow_pos_nonneg 2 (5 * Z.of_nat k) ltac:(lia) ltac:(lia)) as Hpos.
    split.
    - apply Z.div_pos; lia.
    - apply Z.div_le_upper_bound; [lia | nia]. }
  lia.
Qed.

Lemma digit_zero (i : Z) : 0 <= i < 2 ^ 31 -> JS.and i MASK = digit i 0.
Proof.
  intros Hi. rewrite digit_land by lia.
  unfold JS.and, MASK. rewrite !toInt32_small by lia.
  by rewrite Z.mul_0_r, Z.shiftr_0_r.
Qed.

Lemma digit_testbit (i : Z) (k : nat) (r : Z) :
  0 <= i < 2 ^ 31 -> (k <= 5)%nat -> 0 <= r < 5 ->
  Z.testbit (digit i k) r = Z.testbit i (5 * Z.of_nat k + r).
Proof.
  intros Hi Hk Hr. rewrite digit_land by assumption.
  rewrite Z.land_spec, Z.shiftr_spec by lia.
  change 31 with (Z.ones 5). rewrite Z.ones_spec_low by lia.
  rewrite andb_true_r. f_equal. lia.
Qed.

Lemma testbit_above (i m n : Z) : 0 <= i < 2 ^ m -> 0 <= m <= n -> Z.testbit i n = false.
Proof.
  intros Hi Hmn. destruct (decide (i = 0)) as [->|Hne]; [apply Z.bits_0|].
  apply Z.bits_above_log2; [lia|].
  assert (Z.log2 i < m); [|lia].
  apply Z.log2_lt_pow2; lia.
Qed.

Lemma digits_inj (d : nat) (i j : Z) :
  (d <= 5)%nat ->
  0 <= i < 32 ^ (Z.of_nat d + 1) -> 0 <= j < 32 ^ (Z.of_nat d + 1) ->
  (forall k, (k <= d)%nat -> digit i k = digit j k) -> i = j.
Proof.
  intros Hd Hi Hj Hdig.
  assert (32 ^ (Z.of_nat d + 1) = 2 ^ (5 * (Z.of_nat d + 1))) as Hpow.
  { change 32 with (2 ^ 5). rewrite <- Z.pow_mul_r by lia. reflexivity. }
  rewrite Hpow in Hi, Hj.
  assert (2 ^ (5 * (Z.of_nat d + 1)) <= 2 ^ 30) as Hle.
  { apply Z.pow_le_mono_r; lia. }
  apply Z.bits_inj'. intros n Hn.
  destruct (decide (n < 5 * (Z.of_nat d + 1))) as [Hlow|Hhigh].
  - pose proof (Z.div_mod n 5 ltac:(lia)) as Hdm.
    pose proof (Z.mod_pos_bound n 5 ltac:(lia)) as Hr.
    assert (0 <= n / 5) by (apply Z.div_pos; lia).
    assert (n / 5 <= Z.of_nat d) by (apply Z.lt_succ_r, Z.div_lt_upper_bound; lia).
    specialize (Hdig (Z.to_nat (n / 5)) ltac:(lia)).
    apply (f_equal (fun z => Z.testbit z (n mod 5))) in Hdig.
    rewrite !digit_testbit in Hdig by lia.
    rewrite Z2Nat.id in Hdig by lia. by rewrite Hdm.
  - rewrite (testbit_above i (5 * (Z.of_nat d + 1)) n),
            (testbit_above j (5 * (Z.of_nat d + 1)) n) by lia.
    reflexivity.
Qed.

Lemma digit_range (i : Z) (k : nat) : 0 <= digit i k <= 31.
Proof. apply and_MASK_range. Qed.

Lemma digits_differ_or_agree (i j : Z) (n : nat) :
  (forall k, (k < n)%nat -> digit i k = digit j k) \/
  (exists k, (k < n)%nat /\ digit i k <> digit j k).
Proof.
  induction n as [|n [IH|(k & Hk & Hne)]].
  - left. intros k Hk. lia.
  - destruct (decide (digit i n = digit j n)) as [Heq|Hne].
    + left. intros k Hk. destruct (decide (k = n)) as [->|]; [exact Heq|].
      apply IH. lia.
    + right. exists n. split; [lia | exact Hne].
  - right. exists k. split; [lia | exact Hne].
Qed.

(** Two different indices below the capacity of depth [d] part ways at
    some level. *)
Lemma digits_differ (d : nat) (i j : Z) :
  (d <= 5)%nat ->
  0 <= i < 32 ^ (Z.of_nat d + 1) -> 0 <= j < 32 ^ (Z.of_nat d + 1) ->
  i <> j -> exists k, (k <= d)%nat /\ digit i k <> digit j k.
Proof.
  intros Hd Hi Hj Hne.
  destruct (digits_differ_or_agree i j (S d)) as [Hall|(k & Hk & Hk')].
  - destruct Hne. apply (digits_inj d); try assumption.
    intros k Hk. apply Hall. lia.
  - exists k. split; [lia | exact Hk'].
Qed.

Lemma capacity_bound (d : nat) : (d <= 5)%nat -> 32 ^ (Z.of_nat d + 1) <= 2 ^ 30.
Proof.
  intros Hd. change 32 with (2 ^ 5). rewrite <- Z.pow_mul_r by lia.
  apply Z.pow_le_mono_r; lia.
Qed.

End Digits.

(** ** Lemmas on arrays and loops *)

Lemma index_lookup {X} (arr : list X) (i : nat) :
  JS.index arr (Z.of_nat i) = arr !! i.
Proof.
  unfold JS.index.
  destruct (Z.ltb_spec (Z.of_nat i) 0); [lia|].
  by rewrite Nat2Z.id.
Qed.

Lemma index_in_range {X} (arr : list X) (i : Z) :
  0 <= i < JS.length arr -> is_Some (JS.index arr i).
Proof.
  unfold JS.index, JS.length. intros Hi.
  destruct (Z.ltb_spec i 0); [lia|].
  apply lookup_lt_is_Some. lia.
Qed.

Lemma index_nonneg {X} (l : list X) (s : Z) :
  0 <= s -> JS.index l s = l !! Z.to_nat s.
Proof. unfold JS.index. intros Hs. by destruct (Z.ltb_spec s 0); [lia|]. Qed.

Lemma bind_Ret_inv {T U} (m : outcome T) (k : T -> outcome U) (u : U) :
  (t ← m; k t) = Ret u -> exists t, m = Ret t /\ k t = Ret u.
Proof. destruct m; simpl; [eauto | discriminate | discriminate]. Qed.

Lemma bind_OutOfFuel {T U} (k : T -> outcome U) : mbind k OutOfFuel = OutOfFuel.
Proof. reflexivity. Qed.

Lemma bind_Ret {T U} (k : T -> outcome U) (t : T) : mbind k (Ret t) = k t.
Proof. reflexivity. Qed.

(** ** The trie-based Vector on tail-only values *)

Section TailOnly.

Import TrieVector Reach.

Context {A : Type}.
Implicit Types (l : list A) (v : Vector A) (x : A) (i : Z) (fuel : nat).

Lemma tail_only_tailVec l : (length l <= 32)%nat -> tail_only (tailVec l).
Proof. intros Hl. split; [reflexivity | exact Hl]. Qed.

Lemma tail_only_inv v :
  tail_only v -> exists l, v = tailVec l /\ (length l <= 32)%nat.
Proof. intros [Hv Hl]. eauto. Qed.

(** pushTail stops at [level === 1] only: entered at level 0 (or below) on
    an empty node it calls itself on a fresh empty node one level down,
    for ever. *)
Lemma pushTail_empty_diverges fuel (index : Z) (tailNode : Node A) (level : Z) :
  level <= 0 -> pushTail fuel (MkNode []) index tailNode level = OutOfFuel.
Proof.
  revert level. induction fuel as [|fuel IH]; intros level Hlevel; [reflexivity|].
  cbn [pushTail array].
  destruct (Z.eqb_spec level 1) as [->|_]; [lia|].
  pose proof (and_MASK_range (JS.shr index (level * BITS))) as Hsub.
  destruct (Z.ltb_spec (JS.and (JS.shr index (level * BITS)) MASK) (JS.length (@nil (Cell A))))
    as [Hlt|_]; [unfold JS.length in Hlt; simpl in Hlt; lia|].
  rewrite bind_Ret, IH by lia. reflexivity.
Qed.

Lemma appended_tailVec fuel l x :
  (length l <= 32)%nat ->
  appended fuel (tailVec l) x =
    if decide (length l < 32)%nat then Ret (tailVec (l ++ [x])) else OutOfFuel.
Proof.
  intros Hl. unfold appended, tailVec; cbn [tail root depth _size].
  unfold WIDTH, JS.length.
  destruct (Z.ltb_spec (Z.of_nat (length l)) 32) as [Hlt|Hge].
  - rewrite decide_True by lia.
    rewrite length_app; simpl. do 2 f_equal. lia.
  - rewrite decide_False by lia.
    replace (Z.of_nat (length l) - 32) with 0 by lia.
    rewrite ushr_zero. cbn [Z.gtb Z.compare].
    rewrite pushTail_empty_diverges by lia. reflexivity.
Qed.

Lemma apply_tailVec_out fuel l i :
  i < 0 \/ JS.length l <= i ->
  apply fuel (tailVec l) i = Throw (IndexOutOfBounds i).
Proof.
  intros Hi. unfold apply, tailVec; cbn [_size].
  destruct (Z.ltb_spec i 0), (Z.geb_spec i (JS.length l)); simpl; (reflexivity || lia).
Qed.

Lemma apply_tailVec_in fuel l (k : nat) x :
  l !! k = Some x -> apply fuel (tailVec l) (Z.of_nat k) = Ret x.
Proof.
  intros Hk. pose proof (lookup_lt_Some _ _ _ Hk) as Hlt.
  unfold apply, tailVec; cbn [_size tail root depth]. unfold JS.length.
  destruct (Z.ltb_spec (Z.of_nat k) 0); [lia|].
  destruct (Z.geb_spec (Z.of_nat k) (Z.of_nat (length l))); [lia|].
  cbn [orb]. rewrite Z.sub_diag, Z.sub_0_r.
  destruct (Z.geb_spec (Z.of_nat k) 0); [|lia].
  by rewrite index_lookup, Hk.
Qed.

Lemma updated_tailVec fuel l i x :
  updated fuel (tailVec l) i x =
    Ret (if decide (0 <= i < JS.length l)
         then tailVec (<[Z.to_nat i := x]> l) else tailVec l).
Proof.
  unfold updated, tailVec; cbn [_size tail root depth].
  destruct (Z.ltb_spec i 0), (Z.geb_spec i (JS.length l)); cbn [orb];
    try (rewrite decide_False by lia; reflexivity).
  rewrite decide_True by lia.
  rewrite Z.sub_diag, Z.sub_0_r.
  destruct (Z.geb_spec i 0); [|lia].
  unfold JS.length. by rewrite length_insert.
Qed.

Lemma forOf_appended fuel (xs : list A) l :
  (length l <= 32)%nat ->
  forOf xs (fun elem vector => appended fuel vector elem) (tailVec l) =
    if decide (length l + length xs <= 32)%nat
    then Ret (tailVec (l ++ xs)) else OutOfFuel.
Proof.
  revert l. induction xs as [|x xs IH]; intros l Hl; cbn [forOf].
  - rewrite decide_True by (simpl; lia). by rewrite app_nil_r.
  - rewrite appended_tailVec by exact Hl.
    destruct (decide (length l < 32)%nat) as [Hlt|Hge].
    + rewrite bind_Ret, IH by (rewrite length_app; simpl; lia).
      rewrite length_app, <- app_assoc. cbn [length app].
      destruct (decide (length l + S (length xs) <= 32)%nat);
        [rewrite decide_True by lia | rewrite decide_False by lia]; reflexivity.
    + rewrite decide_False by (simpl; lia). reflexivity.
Qed.

Lemma of_spec fuel l :
  of_ fuel l = if decide (length l <= 32)%nat then Ret (tailVec l) else OutOfFuel.
Proof.
  unfold of_, WIDTH, JS.length.
  destruct (Z.eqb_spec (Z.of_nat (length l)) 0) as [H0|H0].
  { destruct l; [|simpl in H0; lia]. reflexivity. }
  destruct (Z.leb_spec (Z.of_nat (length l)) 32) as [Hle|Hgt].
  { rewrite decide_True by lia. reflexivity. }
  change (@empty A) with (tailVec (@nil A)).
  rewrite forOf_appended by (simpl; lia). reflexivity.
Qed.

Lemma from_spec fuel l :
  from fuel l = if decide (length l <= 32)%nat then Ret (tailVec l) else OutOfFuel.
Proof. apply of_spec. Qed.

Lemma appendAll_loop fuel l1 l2 (k : nat) :
  (length l1 <= 32)%nat -> (k <= length l2)%nat ->
  forUpTo k (fun i result => x ← apply fuel (tailVec l2) i; appended fuel result x)
    (tailVec l1) =
    if decide (length l1 + k <= 32)%nat
    then Ret (tailVec (l1 ++ take k l2)) else OutOfFuel.
Proof.
  intros Hl1. induction k as [|k IH]; intros Hk; cbn [forUpTo].
  - rewrite decide_True by lia. by rewrite take_0, app_nil_r.
  - rewrite IH by lia.
    destruct (decide (length l1 + k <= 32)%nat) as [Hle|Hgt];
      [|rewrite decide_False by lia; reflexivity].
    rewrite bind_Ret.
    destruct (lookup_lt_is_Some_2 l2 k ltac:(lia)) as [a Ha].
    rewrite (apply_tailVec_in _ _ _ _ Ha), bind_Ret.
    rewrite appended_tailVec by (rewrite length_app, length_take; lia).
    rewrite length_app, length_take, Nat.min_l by lia.
    rewrite (take_S_r _ _ _ Ha), app_assoc.
    destruct (decide (length l1 + k < 32)%nat);
      [rewrite decide_True by lia | rewrite decide_False by lia]; reflexivity.
Qed.

Lemma isEmpty_tailVec l : isEmpty (tailVec l) = bool_decide (l = []).
Proof.
  unfold isEmpty, tailVec, JS.length; cbn [_size].
  destruct l; [reflexivity|]. simpl length.
  rewrite bool_decide_eq_false_2 by discriminate.
  apply Z.eqb_neq. lia.
Qed.

Lemma appendAll_tailVec fuel l1 l2 :
  (length l1 <= 32)%nat -> (length l2 <= 32)%nat ->
  appendAll fuel (tailVec l1) (tailVec l2) =
    if decide (length l1 + length l2 <= 32)%nat
    then Ret (tailVec (l1 ++ l2)) else OutOfFuel.
Proof.
  intros H1 H2. unfold appendAll. rewrite !isEmpty_tailVec.
  destruct l2 as [|b l2].
  { rewrite bool_decide_eq_true_2 by reflexivity.
    rewrite decide_True by (simpl; lia). by rewrite app_nil_r. }
  rewrite bool_decide_eq_false_2 by discriminate.
  destruct l1 as [|a l1].
  { rewrite bool_decide_eq_true_2 by reflexivity.
    rewrite decide_True by (simpl in *; lia). reflexivity. }
  rewrite bool_decide_eq_false_2 by discriminate.
  unfold size, tailVec at 1; cbn [_size]. unfold JS.length at 1.
  rewrite Nat2Z.id, appendAll_loop by (exact H1 || lia).
  by rewrite firstn_all.
Qed.

Lemma prepended_tailVec fuel l x :
  (length l <= 32)%nat ->
  prepended fuel (tailVec l) x =
    if decide (length l < 32)%nat then Ret (tailVec (x :: l)) else OutOfFuel.
Proof.
  intros Hl. unfold prepended. rewrite isEmpty_tailVec.
  rewrite of_spec, decide_True by (simpl; lia).
  destruct l as [|a l].
  { rewrite bool_decide_eq_true_2 by reflexivity.
    rewrite decide_True by (simpl; lia). reflexivity. }
  rewrite bool_decide_eq_false_2 by discriminate.
  rewrite bind_Ret.
  change (tail (tailVec (a :: l))) with (a :: l).
  change (_size (tailVec (a :: l))) with (JS.length (a :: l)).
  change (root (tailVec (a :: l))) with (@MkNode A []).
  change (depth (tailVec (a :: l))) with 0.
  rewrite Z.sub_diag. cbn [Z.eqb].
  unfold WIDTH, JS.length at 1.
  destruct (Z.eqb_spec (Z.of_nat (length (a :: l))) 32) as [Heq|Hne].
  - rewrite appendAll_tailVec by (simpl in *; lia).
    rewrite !decide_False by (simpl in *; lia). reflexivity.
  - rewrite decide_True by (simpl in *; lia).
    unfold tailVec, JS.length. do 2 f_equal. simpl length. lia.
Qed.

Lemma toArray_loop fuel l (k : nat) :
  (k <= length l)%nat ->
  forUpTo k (fun i result => x ← apply fuel (tailVec l) i; Ret (result ++ [x])) [] =
    Ret (take k l).
Proof.
  induction k as [|k IH]; intros Hk; cbn [forUpTo].
  - by rewrite take_0.
  - rewrite IH, bind_Ret by lia.
    destruct (lookup_lt_is_Some_2 l k ltac:(lia)) as [a Ha].
    by rewrite (apply_tailVec_in _ _ _ _ Ha), bind_Ret, (take_S_r _ _ _ Ha).
Qed.

Lemma toArray_tailVec fuel l : toArray fuel (tailVec l) = Ret l.
Proof.
  unfold toArray, tailVec at 1; cbn [_size]. unfold JS.length.
  rewrite Nat2Z.id, toArray_loop by lia. by rewrite firstn_all.
Qed.

Lemma filter_loop fuel l (p : A -> bool) (k : nat) :
  (length l <= 32)%nat -> (k <= length l)%nat ->
  forUpTo k
    (fun i result =>
       elem ← apply fuel (tailVec l) i;
       if p elem then appended fuel result elem else Ret result)
    empty =
    Ret (tailVec (List.filter p (take k l))).
Proof.
  intros Hl. induction k as [|k IH]; intros Hk; cbn [forUpTo].
  - by rewrite take_0.
  - rewrite IH, bind_Ret by lia.
    destruct (lookup_lt_is_Some_2 l k ltac:(lia)) as [a Ha].
    rewrite (apply_tailVec_in _ _ _ _ Ha), bind_Ret, (take_S_r _ _ _ Ha).
    rewrite List.filter_app. cbn [List.filter].
    assert (length (List.filter p (take k l)) <= k)%nat as Hf.
    { etransitivity; [apply List.filter_length_le|]. rewrite length_take. lia. }
    destruct (p a); [|by rewrite app_nil_r].
    rewrite appended_tailVec, decide_True by lia. reflexivity.
Qed.

Lemma filter_tailVec fuel l (p : A -> bool) :
  (length l <= 32)%nat ->
  filter fuel (tailVec l) p = Ret (tailVec (List.filter p l)).
Proof.
  intros Hl. unfold filter. rewrite isEmpty_tailVec.
  destruct l as [|a l]; [reflexivity|].
  rewrite bool_decide_eq_false_2 by discriminate.
  unfold tailVec at 1; cbn [_size]. unfold JS.length.
  rewrite Nat2Z.id, filter_loop by lia. by rewrite firstn_all.
Qed.

End TailOnly.

Section TailOnlyTransformations.

Import TrieVector Reach.

Context {A B : Type}.
Implicit Types (l : list A) (fuel : nat).

Lemma length_fmap_JS (f : A -> B) l : JS.length (f <$> l) = JS.length l.
Proof. unfold JS.length. by rewrite length_fmap. Qed.

Lemma map_tailVec fuel l (f : A -> B) :
  map fuel (tailVec l) f = Ret (tailVec (f <$> l)).
Proof.
  unfold map, tailVec; cbn [_size tail].
  rewrite Z.eqb_refl. by rewrite length_fmap_JS.
Qed.

(** The elements flatMap lays out: the tails of the Vectors [f] returns. *)
Lemma flatMap_loop fuel l (f : A -> Vector B) (k : nat) :
  (forall a, a ∈ l -> tail_only (f a)) ->
  (k <= length l)%nat ->
  forUpTo k (fun i result => x ← apply fuel (tailVec l) i; appendAll fuel result (f x))
    empty =
    let c := concat ((fun a => tail (f a)) <$> take k l) in
    if decide (length c <= 32)%nat then Ret (tailVec c) else OutOfFuel.
Proof.
  intros Hf. induction k as [|k IH]; intros Hk; cbn [forUpTo].
  - rewrite take_0. reflexivity.
  - rewrite IH by lia. cbv zeta.
    destruct (lookup_lt_is_Some_2 l k ltac:(lia)) as [a Ha].
    rewrite (take_S_r _ _ _ Ha), fmap_app, concat_app, length_app.
    cbn [fmap list_fmap concat]. rewrite app_nil_r.
    set (c := concat ((fun a => tail (f a)) <$> take k l)).
    destruct (decide (length c <= 32)%nat) as [Hc|Hc];
      [|rewrite decide_False by lia; reflexivity].
    rewrite bind_Ret, (apply_tailVec_in _ _ _ _ Ha), bind_Ret.
    destruct (Hf a) as [Hfa Hlen]; [by eapply list_elem_of_lookup_2|].
    rewrite Hfa at 1. rewrite appendAll_tailVec by assumption.
    reflexivity.
Qed.

Lemma flatMap_tailVec fuel l (f : A -> Vector B) :
  (forall a, a ∈ l -> tail_only (f a)) ->
  flatMap fuel (tailVec l) f =
    let c := concat ((fun a => tail (f a)) <$> l) in
    if decide (length c <= 32)%nat then Ret (tailVec c) else OutOfFuel.
Proof.
  intros Hf. unfold flatMap. rewrite isEmpty_tailVec.
  destruct l as [|a l]; [reflexivity|].
  rewrite bool_decide_eq_false_2 by discriminate.
  unfold tailVec at 1; cbn [_size]. unfold JS.length.
  rewrite Nat2Z.id, flatMap_loop by (assumption || lia).
  by rewrite firstn_all.
Qed.

End TailOnlyTransformations.

(** ** The helpers on a trie built by hand

    The reading and path-copying helpers do their work on a trie of the
    shape the data model describes; pushTail returns when it is entered at
    level 1. *)

Section HandBuiltTrie.

Import TrieVector Reach.

Example scenarioResult_reads :
  apply 2 scenarioResult 31 = Ret 32 /\
  apply 2 scenarioResult 32 = Ret 33 /\
  toArray 2 scenarioResult = Ret (oneTo 33).
Proof. repeat apply conj; vm_compute; reflexivity. Qed.

Example scenarioResult_updated :
  (v ← updated 2 scenarioResult 5 99; toArray 2 v)
    = Ret (<[5%nat := 99]> (oneTo 33)).
Proof. vm_compute. reflexivity. Qed.

Lemma pushTail_level_1 {A} (fuel : nat) (node tailNode : Node A) (index : Z) :
  pushTail (S fuel) node index tailNode 1 =
    Ret (MkNode (assign (spread (array node))
                        (JS.and (JS.shr index (1 * BITS)) MASK) (CNode tailNode))).
Proof. reflexivity. Qed.

(** Had the root been wrapped before the first flush, the scenario's
    result would have come out. *)
Example pushTail_from_level_1 :
  pushTail 1 (MkNode [CNode (MkNode [])]) 0 (MkNode (CVal <$> oneTo 32)) 1
    = Ret (root scenarioResult).
Proof. vm_compute. reflexivity. Qed.

(** The guards of apply and updated keep the tail access inside the tail. *)
Lemma tail_access_in_range {A} (v : Vector A) (i : Z) :
  0 <= i < _size v -> i >= _size v - JS.length (tail v) ->
  is_Some (JS.index (tail v) (i - (_size v - JS.length (tail v)))).
Proof. intros Hi Htail. apply index_in_range. lia. Qed.

End HandBuiltTrie.

(** ** Reading and path copy on a well-formed trie *)

Section PathCopy.

Import TrieVector Reach.

Context {A : Type}.
Implicit Types (node child : Node A) (arr : list (Cell A)) (i j s : Z) (x y : A) (d : nat).

Lemma asNode_Ret arr s child :
  0 <= s -> asNode (JS.index arr s) = Ret child -> arr !! Z.to_nat s = Some (CNode child).
Proof.
  unfold JS.index. intros Hs. destruct (Z.ltb_spec s 0); [lia|].
  destruct (arr !! Z.to_nat s) as [[| | | |]|]; simpl; congruence.
Qed.

Lemma asElem_Ret arr s y :
  0 <= s -> asElem (JS.index arr s) = Ret y -> arr !! Z.to_nat s = Some (CVal y).
Proof.
  unfold JS.index. intros Hs. destruct (Z.ltb_spec s 0); [lia|].
  destruct (arr !! Z.to_nat s) as [[| | | |]|]; simpl; congruence.
Qed.

Lemma spread_lookup_node arr (n : nat) child :
  arr !! n = Some (CNode child) -> spread arr !! n = Some (CNode child).
Proof. intros H. unfold spread. by rewrite list_lookup_fmap, H. Qed.

Lemma spread_lookup_val arr (n : nat) y :
  arr !! n = Some (CVal y) -> spread arr !! n = Some (CVal y).
Proof. intros H. unfold spread. by rewrite list_lookup_fmap, H. Qed.

Lemma assign_inside arr s (c c0 : Cell A) :
  0 <= s -> arr !! Z.to_nat s = Some c0 ->
  assign arr s c = <[Z.to_nat s := c]> arr.
Proof.
  intros Hs Hc. pose proof (lookup_lt_Some _ _ _ Hc) as Hlt.
  unfold assign, JS.length.
  destruct (Z.ltb_spec s 0); [lia|].
  destruct (Z.ltb_spec s (Z.of_nat (length arr))); [reflexivity | lia].
Qed.

Lemma getElem_leaf fuel node i :
  getElem (S fuel) node i 0 = asElem (JS.index (array node) (JS.and i MASK)).
Proof. reflexivity. Qed.

Lemma getElem_inner fuel node i d :
  getElem (S fuel) node i (Z.of_nat (S d)) =
    child ← asNode (JS.index (array node) (digit i (S d)));
    getElem fuel child i (Z.of_nat d).
Proof.
  cbn [getElem]. destruct (Z.eqb_spec (Z.of_nat (S d)) 0); [lia|].
  replace (Z.of_nat (S d) - 1) with (Z.of_nat d) by lia. reflexivity.
Qed.

Lemma updateElem_leaf fuel node i x :
  updateElem (S fuel) node i x 0 =
    Ret (MkNode (assign (spread (array node)) (JS.and i MASK) (CVal x))).
Proof. reflexivity. Qed.

Lemma updateElem_inner fuel node i x d :
  updateElem (S fuel) node i x (Z.of_nat (S d)) =
    child ← asNode (JS.index (array node) (digit i (S d)));
    newChild ← updateElem fuel child i x (Z.of_nat d);
    Ret (MkNode (assign (spread (array node)) (digit i (S d)) (CNode newChild))).
Proof.
  cbn [updateElem]. destruct (Z.eqb_spec (Z.of_nat (S d)) 0); [lia|].
  replace (Z.of_nat (S d) - 1) with (Z.of_nat d) by lia. reflexivity.
Qed.

(** Path copy: the updated node reads [x] at [i] and reads as before at
    every index whose path leaves the path of [i]. *)
Lemma updateElem_getElem d : forall node i x y,
  0 <= i < 2 ^ 31 ->
  getElem (S d) node i (Z.of_nat d) = Ret y ->
  exists node', updateElem (S d) node i x (Z.of_nat d) = Ret node' /\
    getElem (S d) node' i (Z.of_nat d) = Ret x /\
    forall j y', 0 <= j < 2 ^ 31 ->
      (exists k, (k <= d)%nat /\ digit i k <> digit j k) ->
      getElem (S d) node j (Z.of_nat d) = Ret y' ->
      getElem (S d) node' j (Z.of_nat d) = Ret y'.
Proof.
  induction d as [|d IH]; intros node i x y Hi Hget.
  - change (Z.of_nat 0) with 0 in *.
    rewrite getElem_leaf, digit_zero in Hget by exact Hi.
    pose proof (digit_range i 0) as Hr.
    apply asElem_Ret in Hget; [|lia].
    eexists. rewrite updateElem_leaf. split; [reflexivity|].
    rewrite digit_zero by exact Hi.
    rewrite (assign_inside _ _ _ (CVal y)) by (lia || by apply spread_lookup_val).
    split.
    + rewrite getElem_leaf, digit_zero by exact Hi. cbn [array].
      rewrite index_nonneg, list_lookup_insert_eq; [reflexivity| |lia].
      apply lookup_lt_Some in Hget. unfold spread. by rewrite length_fmap.
    + intros j y' Hj (k & Hk & Hne) Hgetj.
      assert (k = 0%nat) as -> by lia.
      pose proof (digit_range j 0) as Hrj.
      rewrite getElem_leaf, digit_zero in Hgetj |- * by exact Hj.
      apply asElem_Ret in Hgetj; [|lia]. cbn [array].
      rewrite index_nonneg, list_lookup_insert_ne by lia.
      by rewrite (spread_lookup_val _ _ _ Hgetj).
  - rewrite getElem_inner in Hget.
    apply bind_Ret_inv in Hget as (child & Hchild & Hget).
    pose proof (digit_range i (S d)) as Hr.
    apply asNode_Ret in Hchild; [|lia].
    destruct (IH child i x y Hi Hget) as (newChild & Hupd & Hsame & Hother).
    eexists. rewrite updateElem_inner.
    rewrite index_nonneg, Hchild by lia. cbn [asNode]. rewrite bind_Ret, Hupd, bind_Ret.
    split; [reflexivity|].
    rewrite (assign_inside _ _ _ (CNode child)) by (lia || by apply spread_lookup_node).
    assert (Z.to_nat (digit i (S d)) < length (spread (array node)))%nat as Hlen.
    { apply lookup_lt_Some in Hchild. unfold spread. by rewrite length_fmap. }
    split.
    + rewrite getElem_inner. cbn [array].
      rewrite index_nonneg, list_lookup_insert_eq by lia.
      cbn [asNode]. by rewrite bind_Ret.
    + intros j y' Hj (k & Hk & Hne) Hgetj.
      pose proof (digit_range j (S d)) as Hrj.
      rewrite getElem_inner in Hgetj |- *.
      apply bind_Ret_inv in Hgetj as (childj & Hchildj & Hgetj).
      apply asNode_Ret in Hchildj; [|lia]. cbn [array].
      rewrite index_nonneg by lia.
      destruct (decide (digit i (S d) = digit j (S d))) as [Heq|Hneq].
      * rewrite <- Heq, list_lookup_insert_eq by lia. cbn [asNode]. rewrite bind_Ret.
        rewrite <- Heq, Hchild in Hchildj. injection Hchildj as <-.
        apply Hother; [exact Hj | | exact Hgetj].
        exists k. split; [|exact Hne].
        destruct (decide (k = S d)) as [->|]; [congruence | lia].
      * rewrite list_lookup_insert_ne by lia.
        rewrite (spread_lookup_node _ _ _ Hchildj). cbn [asNode].
        by rewrite bind_Ret.
Qed.

(** More fuel does not change a read that came back. *)
Lemma getElem_more_fuel d : forall fuel node i y,
  getElem (S d) node i (Z.of_nat d) = Ret y -> (d < fuel)%nat ->
  getElem fuel node i (Z.of_nat d) = Ret y.
Proof.
  induction d as [|d IH]; intros fuel node i y Hget Hfuel;
    (destruct fuel as [|fuel]; [lia|]).
  - exact Hget.
  - rewrite getElem_inner in Hget |- *.
    apply bind_Ret_inv in Hget as (child & -> & Hget).
    rewrite bind_Ret. apply IH; [exact Hget | lia].
Qed.

Lemma updateElem_more_fuel d : forall fuel node i x node',
  updateElem (S d) node i x (Z.of_nat d) = Ret node' -> (d < fuel)%nat ->
  updateElem fuel node i x (Z.of_nat d) = Ret node'.
Proof.
  induction d as [|d IH]; intros fuel node i x node' Hupd Hfuel;
    (destruct fuel as [|fuel]; [lia|]).
  - exact Hupd.
  - rewrite updateElem_inner in Hupd |- *.
    apply bind_Ret_inv in Hupd as (child & -> & Hupd).
    apply bind_Ret_inv in Hupd as (newChild & Hupd & Hret).
    rewrite bind_Ret, (IH fuel _ _ _ _ Hupd), bind_Ret by lia. exact Hret.
Qed.

End PathCopy.

Section WellFormed.

Import TrieVector Reach.

Context {A : Type}.
Implicit Types (v : Vector A) (i j : Z) (x y : A) (d fuel : nat).

Lemma apply_tail_region fuel v i :
  0 <= i < _size v -> i >= _size v - JS.length (tail v) ->
  apply fuel v i =
    match tail v !! Z.to_nat (i - (_size v - JS.length (tail v))) with
    | Some a => Ret a
    | None => Throw CastViolation
    end.
Proof.
  intros Hi Ht. unfold apply.
  destruct (Z.ltb_spec i 0), (Z.geb_spec i (_size v)); try lia. cbn [orb].
  destruct (Z.geb_spec i (_size v - JS.length (tail v))); [|lia].
  by rewrite index_nonneg by lia.
Qed.

Lemma apply_trie_region fuel v i :
  0 <= i < _size v -> i < _size v - JS.length (tail v) ->
  apply fuel v i = getElem fuel (root v) i (depth v).
Proof.
  intros Hi Ht. unfold apply.
  destruct (Z.ltb_spec i 0), (Z.geb_spec i (_size v)); try lia. cbn [orb].
  by destruct (Z.geb_spec i (_size v - JS.length (tail v))); [lia|].
Qed.

(** Access/update consistency on every well-formed Vector, trie included. *)
Lemma updated_then_apply_well_formed v x i fuel :
  well_formed v -> (Z.to_nat (depth v) < fuel)%nat -> 0 <= i < size v ->
  exists v', updated fuel v i x = Ret v' /\
    apply fuel v' i = Ret x /\
    forall j, j <> i -> 0 <= j < size v ->
      exists y, apply fuel v j = Ret y /\ apply fuel v' j = Ret y.
Proof.
  intros (Hdepth & Hcap & Hpaths) Hfuel Hi. unfold size in *.
  destruct v as [rt tl dp sz]; cbn [root tail depth _size] in *.
  set (d := Z.to_nat dp) in *. assert (dp = Z.of_nat d) as Hdp by lia.
  pose proof (capacity_bound d ltac:(lia)) as Hcapd. rewrite <- Hdp in Hcapd.
  assert (forall j, 0 <= j < sz - JS.length tl ->
            exists y, getElem fuel rt j dp = Ret y) as Hread.
  { intros j Hj. destruct (Hpaths j Hj) as [y Hy]. exists y.
    rewrite Hdp in Hy |- *. by apply getElem_more_fuel. }
  assert (forall (tl' : list A) j, length tl' = length tl ->
            0 <= j < sz -> j >= sz - JS.length tl ->
            is_Some (tl' !! Z.to_nat (j - (sz - JS.length tl)))) as Htail.
  { intros tl' j Hlen Hj Hjt. apply lookup_lt_is_Some. unfold JS.length in *. lia. }
  unfold updated; cbn [root tail depth _size].
  destruct (Z.ltb_spec i 0), (Z.geb_spec i sz); try lia. cbn [orb].
  destruct (Z.geb_spec i (sz - JS.length tl)) as [Hit|Hit].
  - (* the index is in the tail *)
    eexists. split; [reflexivity|].
    assert (JS.length (<[Z.to_nat (i - (sz - JS.length tl)) := x]> tl) = JS.length tl)
      as Hlen by (unfold JS.length; by rewrite length_insert).
    split.
    + rewrite apply_tail_region; cbn [root tail depth _size]; rewrite ?Hlen; try lia.
      rewrite list_lookup_insert_eq; [reflexivity|].
      apply lookup_lt_is_Some, (Htail tl i); [reflexivity | lia | lia].
    + intros j Hne Hj.
      destruct (decide (j >= sz - JS.length tl)) as [Hjt|Hjt].
      * destruct (Htail tl j eq_refl Hj Hjt) as [y Hy]. exists y.
        rewrite !apply_tail_region; cbn [root tail depth _size]; rewrite ?Hlen; try lia.
        rewrite list_lookup_insert_ne by lia. by rewrite Hy.
      * destruct (Hread j ltac:(lia)) as [y Hy]. exists y.
        rewrite !apply_trie_region; cbn [root tail depth _size]; rewrite ?Hlen; try lia.
        by split.
  - (* the index is in the trie *)
    destruct (Hpaths i ltac:(lia)) as [y0 Hy0]. rewrite Hdp in Hy0. fold d in Hy0.
    destruct (updateElem_getElem d rt i x y0 ltac:(lia) Hy0)
      as (rt' & Hupd & Hsame & Hother).
    exists (MkVector rt' tl dp sz).
    rewrite Hdp at 1. rewrite (updateElem_more_fuel d fuel _ _ _ _ Hupd) by lia.
    split; [by rewrite bind_Ret, Hdp|]. split.
    + rewrite apply_trie_region; cbn [root tail depth _size]; try lia.
      rewrite Hdp. by apply getElem_more_fuel.
    + intros j Hne Hj.
      destruct (decide (j >= sz - JS.length tl)) as [Hjt|Hjt].
      * destruct (Htail tl j eq_refl Hj Hjt) as [y Hy]. exists y.
        rewrite !apply_tail_region; cbn [root tail depth _size]; try lia.
        by rewrite Hy.
      * destruct (Hpaths j ltac:(lia)) as [y Hy]. rewrite Hdp in Hy. fold d in Hy.
        exists y.
        rewrite !apply_trie_region; cbn [root tail depth _size]; try lia.
        rewrite Hdp. split; apply getElem_more_fuel; try lia; [exact Hy|].
        apply Hother; [lia | | exact Hy].
        apply digits_differ; rewrite <- ?Hdp; lia.
Qed.

Lemma tail_only_well_formed v : tail_only v -> well_formed v.
Proof.
  intros (l & -> & Hl)%tail_only_inv.
  unfold well_formed, tailVec; cbn [root tail depth _size].
  rewrite Z.sub_diag. repeat split; try lia.
Qed.

End WellFormed.

Section HandBuiltTrieShape.

Import TrieVector Reach.

Example scenarioResult_well_formed : well_formed scenarioResult.
Proof.
  unfold well_formed, scenarioResult; cbn [root tail depth _size].
  change (JS.length [33]) with 1.
  split; [lia|]. split; [split; [lia | vm_compute; congruence]|].
  intros i Hi.
  assert (Hcases : exists n, (n < 32)%nat /\ i = Z.of_nat n) by (exists (Z.to_nat i); lia).
  destruct Hcases as (n & Hn & ->).
  do 32 (destruct n as [|n]; [eexists; vm_compute; reflexivity|]). lia.
Qed.

(** On a Vector with a trie prepended shifts the first leaf and the stored
    first element is lost: index 0 reads the old second element. *)
Example prepended_on_a_trie_drops_an_element :
  (v ← prepended 2 scenarioResult 0; apply 2 v 0) = Ret 2 /\
  (v ← prepended 2 scenarioResult 0; Ret (size v)) = Ret 34.
Proof. split; vm_compute; reflexivity. Qed.

End HandBuiltTrieShape.

(** ** The stored element of an index, and what apply reads *)

Section Stored.

Import TrieVector Reach.

Context {A : Type}.
Implicit Types (v : Vector A) (node : Node A) (i j : Z) (x y : A) (d fuel : nat).

Lemma digit_divmod i (k : nat) :
  0 <= i < 2 ^ 31 -> (k <= 5)%nat -> digit i k = (i / 32 ^ Z.of_nat k) mod 32.
Proof.
  intros Hi Hk. rewrite digit_land by assumption.
  rewrite Z.shiftr_div_pow2 by lia.
  change 31 with (Z.ones 5). rewrite Z.land_ones by lia.
  change 32 with (2 ^ 5). rewrite <- Z.pow_mul_r by lia. reflexivity.
Qed.

(** The read of the code finds exactly what is stored under the path. *)
Lemma getElem_leafAt d : forall node i x,
  0 <= i < 2 ^ 31 -> (d <= 5)%nat ->
  getElem (S d) node i (Z.of_nat d) = Ret x <-> leafAt d node i = Some x.
Proof.
  induction d as [|d IH]; intros node i x Hi Hd.
  - change (Z.of_nat 0) with 0 at 1.
    rewrite getElem_leaf, digit_zero, digit_divmod by (assumption || lia).
    cbn [leafAt]. pose proof (Z.mod_pos_bound (i / 32 ^ Z.of_nat 0) 32 ltac:(lia)).
    rewrite index_nonneg by lia.
    destruct (array node !! _) as [[| | | |]|]; cbn; split; congruence.
  - rewrite getElem_inner, digit_divmod by (assumption || lia).
    cbn [leafAt]. pose proof (Z.mod_pos_bound (i / 32 ^ Z.of_nat (S d)) 32 ltac:(lia)).
    rewrite index_nonneg by lia.
    destruct (array node !! _) as [[| child | | |]|]; cbn;
      try (split; congruence).
    apply IH; [assumption | lia].
Qed.

Lemma well_stored_bounds v i :
  well_stored v -> 0 <= i < _size v - JS.length (tail v) ->
  0 <= i < 2 ^ 31 /\ (Z.to_nat (depth v) <= 5)%nat /\
  depth v = Z.of_nat (Z.to_nat (depth v)).
Proof.
  intros (Hd & Hcap & _) Hi.
  pose proof (capacity_bound (Z.to_nat (depth v)) ltac:(lia)) as Hc.
  rewrite Z2Nat.id in Hc by lia. lia.
Qed.

Lemma well_stored_well_formed v : well_stored v -> well_formed v.
Proof.
  intros Hws. pose proof Hws as (Hd & Hcap & Hpaths).
  split; [exact Hd|]. split; [exact Hcap|].
  intros i Hi. destruct (Hpaths i Hi) as [x Hx]. exists x.
  destruct (well_stored_bounds v i Hws Hi) as (Hi31 & Hd5 & Hdp).
  rewrite Hdp at 2. by apply getElem_leafAt.
Qed.

Lemma tail_only_well_stored v : tail_only v -> well_stored v.
Proof.
  intros (l & -> & Hl)%tail_only_inv.
  unfold well_stored, tailVec; cbn [root tail depth _size].
  rewrite Z.sub_diag. repeat split; try lia.
Qed.

(** In range and with fuel for the depth, apply returns the stored element. *)
Lemma apply_reads_stored v i fuel :
  well_stored v -> (Z.to_nat (depth v) < fuel)%nat -> 0 <= i < size v ->
  exists x, storedAt v i = Some x /\ apply fuel v i = Ret x.
Proof.
  intros Hws Hfuel Hi. unfold size in Hi. unfold storedAt. cbv zeta.
  destruct (decide (_size v - JS.length (tail v) <= i)) as [Htail|Htrie].
  - rewrite apply_tail_region by lia.
    destruct (lookup_lt_is_Some_2 (tail v)
                (Z.to_nat (i - (_size v - JS.length (tail v))))) as [x Hx].
    { unfold JS.length in *. lia. }
    exists x. by rewrite Hx.
  - pose proof Hws as (_ & _ & Hpaths).
    destruct (Hpaths i ltac:(lia)) as [x Hx]. exists x. split; [exact Hx|].
    destruct (well_stored_bounds v i Hws ltac:(lia)) as (Hi31 & Hd5 & Hdp).
    rewrite apply_trie_region by lia. rewrite Hdp.
    apply getElem_more_fuel; [|lia]. by apply getElem_leafAt.
Qed.

End Stored.

(** ** The out-of-bounds error comes from the guard of apply only *)

Section Quiet.

Import TrieVector Reach.

Lemma quiet_Ret {T} (t : T) : ~ raises_out_of_range (Ret t).
Proof. by intros [k Hk]. Qed.

Lemma quiet_OutOfFuel {T} : ~ raises_out_of_range (@OutOfFuel T).
Proof. by intros [k Hk]. Qed.

Lemma quiet_Throw {T} (e : error) :
  (forall k, e <> IndexOutOfBounds k) -> ~ raises_out_of_range (@Throw T e).
Proof. intros He [k [= ->]]. by apply (He k). Qed.

Lemma quiet_bind {T U} (m : outcome T) (k : T -> outcome U) :
  ~ raises_out_of_range m ->
  (forall t, m = Ret t -> ~ raises_out_of_range (k t)) ->
  ~ raises_out_of_range (m ≫= k).
Proof.
  intros Hm Hk. destruct m as [t|e|]; cbn.
  - by apply Hk.
  - intros [i [= ->]]. apply Hm. by exists i.
  - apply quiet_OutOfFuel.
Qed.

Lemma quiet_forUpTo {S} (n : nat) (body : Z -> S -> outcome S) (acc : S) :
  (forall k s, (k < n)%nat -> ~ raises_out_of_range (body (Z.of_nat k) s)) ->
  ~ raises_out_of_range (forUpTo n body acc).
Proof.
  induction n as [|n IH]; intros Hbody; cbn [forUpTo]; [apply quiet_Ret|].
  apply quiet_bind.
  - apply IH. intros k s Hk. apply Hbody. lia.
  - intros s _. apply Hbody. lia.
Qed.

Lemma quiet_forOf {X S} (xs : list X) (body : X -> S -> outcome S) (acc : S) :
  (forall x s, ~ raises_out_of_range (body x s)) ->
  ~ raises_out_of_range (forOf xs body acc).
Proof.
  intros Hbody. revert acc. induction xs as [|x xs IH]; intros acc; cbn [forOf];
    [apply quiet_Ret|].
  apply quiet_bind; [apply Hbody | intros s _; apply IH].
Qed.

Context {A : Type}.
Implicit Types (v w : Vector A) (node : Node A) (i : Z) (x : A) (fuel : nat).

Lemma quiet_asNode (cell : option (Cell A)) : ~ raises_out_of_range (asNode cell).
Proof.
  destruct cell as [[| | | |]|]; cbn;
    (apply quiet_Ret || (apply quiet_Throw; discriminate)).
Qed.

Lemma quiet_asElem (cell : option (Cell A)) : ~ raises_out_of_range (asElem cell).
Proof.
  destruct cell as [[| | | |]|]; cbn;
    (apply quiet_Ret || (apply quiet_Throw; discriminate)).
Qed.

Lemma quiet_getElem fuel : forall node i level,
  ~ raises_out_of_range (getElem fuel node i level).
Proof.
  induction fuel as [|fuel IH]; intros node i level; cbn [getElem];
    [apply quiet_OutOfFuel|].
  destruct (level =? 0); [apply quiet_asElem|].
  apply quiet_bind; [apply quiet_asNode | intros child _; apply IH].
Qed.

Lemma quiet_updateElem fuel : forall node i x level,
  ~ raises_out_of_range (updateElem fuel node i x level).
Proof.
  induction fuel as [|fuel IH]; intros node i x level; cbn [updateElem];
    [apply quiet_OutOfFuel|].
  destruct (level =? 0); [apply quiet_Ret|].
  apply quiet_bind; [apply quiet_asNode | intros child _].
  apply quiet_bind; [apply IH | intros n _; apply quiet_Ret].
Qed.

Lemma quiet_pushTail fuel : forall node i (tailNode : Node A) level,
  ~ raises_out_of_range (pushTail fuel node i tailNode level).
Proof.
  induction fuel as [|fuel IH]; intros node i tailNode level; cbn [pushTail];
    [apply quiet_OutOfFuel|].
  destruct (level =? 1); [apply quiet_Ret|].
  apply quiet_bind.
  - destruct (_ <? _); [apply quiet_asNode | apply quiet_Ret].
  - intros child _.
    apply quiet_bind; [apply IH | intros n _; apply quiet_Ret].
Qed.

Lemma quiet_removeFirst fuel : forall node level,
  ~ raises_out_of_range (removeFirst fuel node level).
Proof.
  induction fuel as [|fuel IH]; intros node level; cbn [removeFirst];
    [apply quiet_OutOfFuel|].
  destruct (level =? 0); [apply quiet_Ret|].
  apply quiet_bind; [apply quiet_asNode | intros child _].
  apply quiet_bind; [apply IH | intros n _; apply quiet_Ret].
Qed.

(** apply raises the out-of-bounds error only from its own guard. *)
Lemma apply_out_of_range_iff fuel v i :
  raises_out_of_range (apply fuel v i) <-> i < 0 \/ i >= size v.
Proof.
  unfold apply, size.
  destruct (Z.ltb_spec i 0), (Z.geb_spec i (_size v)); cbn [orb];
    try (split; [lia | intros _; by eexists]).
  split; [|lia]. intros Hraise. exfalso. revert Hraise.
  destruct (_ >=? _).
  - destruct (JS.index _ _); [apply quiet_Ret | apply quiet_Throw; discriminate].
  - apply quiet_getElem.
Qed.

Lemma quiet_apply fuel v i : 0 <= i < size v -> ~ raises_out_of_range (apply fuel v i).
Proof. rewrite apply_out_of_range_iff. lia. Qed.

Lemma quiet_get `{JS.Nullish A} fuel v i : ~ raises_out_of_range (get fuel v i).
Proof.
  unfold get. destruct (_ || _) eqn:Hguard; [apply quiet_Ret|].
  apply orb_false_elim in Hguard as [Hlt Hge].
  apply quiet_bind.
  - apply quiet_apply. unfold size.
    apply Z.ltb_ge in Hlt. destruct (Z.geb_spec i (_size v)); [discriminate | lia].
  - intros a _. unfold Option.Some, Option.newSomeImpl.
    destruct (JS.is_nullish a); apply quiet_Ret.
Qed.

Lemma quiet_updated fuel v i x : ~ raises_out_of_range (updated fuel v i x).
Proof.
  unfold updated. destruct (_ || _); [apply quiet_Ret|].
  destruct (_ >=? _); [apply quiet_Ret|].
  apply quiet_bind; [apply quiet_updateElem | intros n _; apply quiet_Ret].
Qed.

Lemma quiet_appended fuel v x : ~ raises_out_of_range (appended fuel v x).
Proof.
  unfold appended. destruct (_ <? _); [apply quiet_Ret|]. cbv zeta.
  apply quiet_bind; [apply quiet_pushTail | intros n _; apply quiet_Ret].
Qed.

Lemma quiet_of fuel (elements : list A) : ~ raises_out_of_range (of_ fuel elements).
Proof.
  unfold of_. destruct (_ =? _); [apply quiet_Ret|].
  destruct (_ <=? _); [apply quiet_Ret|].
  apply quiet_forOf. intros x s. apply quiet_appended.
Qed.

Lemma quiet_appendAll fuel v w : ~ raises_out_of_range (appendAll fuel v w).
Proof.
  unfold appendAll. destruct (isEmpty w); [apply quiet_Ret|].
  destruct (isEmpty v); [apply quiet_Ret|].
  apply quiet_forUpTo. intros k s Hk.
  apply quiet_bind; [apply quiet_apply; lia | intros x _; apply quiet_appended].
Qed.

Lemma quiet_prepended fuel v x :
  0 <= size v -> ~ raises_out_of_range (prepended fuel v x).
Proof.
  intros Hsize. unfold prepended, isEmpty, size in *.
  destruct (Z.eqb_spec (_size v) 0) as [H0|H0]; [apply quiet_of|].
  destruct (_ =? WIDTH).
  { apply quiet_bind; [apply quiet_of | intros one _; apply quiet_appendAll]. }
  cbv zeta. destruct (_ =? 0); [apply quiet_Ret|].
  apply quiet_bind; [apply quiet_apply; unfold size; lia | intros first _].
  apply quiet_bind; [apply quiet_removeFirst | intros n _; apply quiet_Ret].
Qed.

Lemma quiet_filter fuel v (p : A -> bool) : ~ raises_out_of_range (filter fuel v p).
Proof.
  unfold filter. destruct (isEmpty v); [apply quiet_Ret|].
  apply quiet_forUpTo. intros k s Hk.
  apply quiet_bind; [apply quiet_apply; unfold size; lia | intros x _].
  destruct (p x); [apply quiet_appended | apply quiet_Ret].
Qed.

Lemma quiet_toArray fuel v : ~ raises_out_of_range (toArray fuel v).
Proof.
  unfold toArray. apply quiet_forUpTo. intros k s Hk.
  apply quiet_bind; [apply quiet_apply; unfold size; lia | intros x _; apply quiet_Ret].
Qed.

End Quiet.

Section QuietTransformations.

Import TrieVector Reach.

Context {A B : Type}.

Lemma quiet_mapCells (g : Cell A -> outcome (Cell B)) (cells : list (Cell A)) :
  (forall c, ~ raises_out_of_range (g c)) ->
  ~ raises_out_of_range (mapCells g cells).
Proof.
  intros Hg. induction cells as [|c cells IH]; cbn [mapCells]; [apply quiet_Ret|].
  apply quiet_bind.
  - destruct c; try apply Hg. apply quiet_Ret.
  - intros c' _. apply quiet_bind; [exact IH | intros cs _; apply quiet_Ret].
Qed.

Lemma quiet_mapNode fuel : forall (node : Node A) (f : A -> B) level,
  ~ raises_out_of_range (mapNode fuel node f level).
Proof.
  induction fuel as [|fuel IH]; intros node f level; cbn [mapNode];
    [apply quiet_OutOfFuel|].
  destruct (level =? 0).
  - apply quiet_bind; [|intros cs _; apply quiet_Ret].
    apply quiet_mapCells. intros c.
    apply quiet_bind; [apply quiet_asElem | intros x _; apply quiet_Ret].
  - apply quiet_bind; [|intros cs _; apply quiet_Ret].
    apply quiet_mapCells. intros [a|n| | |];
      try apply quiet_Ret; [apply quiet_Throw; discriminate|].
    apply quiet_bind; [apply IH | intros n' _; apply quiet_Ret].
Qed.

Lemma quiet_map fuel (v : Vector A) (f : A -> B) : ~ raises_out_of_range (map fuel v f).
Proof.
  unfold map. cbv zeta. destruct (_ =? _); [apply quiet_Ret|].
  apply quiet_bind; [apply quiet_mapNode | intros n _; apply quiet_Ret].
Qed.

Lemma quiet_flatMap fuel (v : Vector A) (f : A -> Vector B) :
  ~ raises_out_of_range (flatMap fuel v f).
Proof.
  unfold flatMap. destruct (isEmpty v); [apply quiet_Ret|].
  apply quiet_forUpTo. intros k s Hk.
  apply quiet_bind; [apply quiet_apply; unfold size; lia | intros x _].
  apply quiet_appendAll.
Qed.

End QuietTransformations.

(** ** removeFirst *)

Section Removing.

Import TrieVector Reach.

Context {A : Type}.




End Removing.

Section ScenarioShapes.

Import TrieVector Reach.

Lemma scenarioResult_well_stored : well_stored scenarioResult.
Proof.
  unfold well_stored, scenarioResult; cbn [root tail depth _size].
  change (JS.length [33]) with 1.
  split; [lia|]. split; [split; [lia | vm_compute; congruence]|].
  intros i Hi.
  assert (Hcases : exists n, (n < 32)%nat /\ i = Z.of_nat n) by (exists (Z.to_nat i); lia).
  destruct Hcases as (n & Hn & ->).
  do 32 (destruct n as [|n]; [vm_compute; eauto|]). lia.
Qed.

Lemma scenarioNullable_well_stored : well_stored scenarioNullable.
Proof.
  unfold well_stored, scenarioNullable; cbn [root tail depth _size].
  change (JS.length [JS.just 33]) with 1.
  split; [lia|]. split; [split; [lia | vm_compute; congruence]|].
  intros i Hi.
  assert (Hcases : exists n, (n < 32)%nat /\ i = Z.of_nat n) by (exists (Z.to_nat i); lia).
  destruct Hcases as (n & Hn & ->).
  do 32 (destruct n as [|n]; [vm_compute; eauto|]). lia.
Qed.


End ScenarioShapes.

(** ** Every Vector the interface produces keeps all its elements in the tail *)

Section Reachable.

Import TrieVector Reach.

Ltac tail_only_step IH :=
  let l := fresh "l" in
  let Hl := fresh "Hl" in
  destruct (tail_only_inv _ IH) as (l & -> & Hl).

Lemma Ret_inj {T} (a b : T) : Ret a = Ret b -> a = b.
Proof. by intros [= ->]. Qed.

Lemma reachable_tail_only {A} (v : Vector A) : reachable v -> tail_only v.
Proof.
  induction 1 as
    [ A
    | A fuel elements v Hv
    | A fuel arr v Hv
    | A fuel this index elem v _ IH Hv
    | A fuel this elem v _ IH Hv
    | A fuel this elem v _ IH Hv
    | A fuel this that v _ IH1 _ IH2 Hv
    | A fuel this p v _ IH Hv
    | A B fuel this f v _ IH Hv
    | A B fuel this f v _ IH _ IHf Hv ].
  - apply (tail_only_tailVec []). simpl; lia.
  - rewrite of_spec in Hv. case_decide; [|discriminate].
    apply Ret_inj in Hv as <-. by apply tail_only_tailVec.
  - rewrite from_spec in Hv. case_decide; [|discriminate].
    apply Ret_inj in Hv as <-. by apply tail_only_tailVec.
  - tail_only_step IH. rewrite updated_tailVec in Hv.
    apply Ret_inj in Hv as <-.
    case_decide; apply tail_only_tailVec; [by rewrite length_insert | done].
  - tail_only_step IH. rewrite appended_tailVec in Hv by done.
    case_decide; [|discriminate]. apply Ret_inj in Hv as <-.
    apply tail_only_tailVec. rewrite length_app. simpl. lia.
  - tail_only_step IH. rewrite prepended_tailVec in Hv by done.
    case_decide; [|discriminate]. apply Ret_inj in Hv as <-.
    apply tail_only_tailVec. simpl. lia.
  - destruct (tail_only_inv _ IH1) as (l1 & -> & Hl1).
    destruct (tail_only_inv _ IH2) as (l2 & -> & Hl2).
    rewrite appendAll_tailVec in Hv by done.
    case_decide; [|discriminate]. apply Ret_inj in Hv as <-.
    apply tail_only_tailVec. by rewrite length_app.
  - tail_only_step IH. rewrite filter_tailVec in Hv by done.
    apply Ret_inj in Hv as <-. apply tail_only_tailVec.
    etransitivity; [apply List.filter_length_le | done].
  - tail_only_step IH. rewrite map_tailVec in Hv.
    apply Ret_inj in Hv as <-. apply tail_only_tailVec.
    by rewrite length_fmap.
  - tail_only_step IH. rewrite flatMap_tailVec in Hv.
    + cbv zeta in Hv. case_decide; [|discriminate].
      apply Ret_inj in Hv as <-. by apply tail_only_tailVec.
    + intros a [k Hk]%list_elem_of_lookup_1.
      apply (IHf (Z.of_nat k)). by apply apply_tailVec_in.
Qed.

(** Conversely every tail-only Vector of at most 32 elements is what [of]
    returns on its elements. *)
Lemma tail_only_reachable {A} (v : Vector A) : tail_only v -> reachable v.
Proof.
  intros (l & -> & Hl)%tail_only_inv.
  apply (reach_of 0 l). by rewrite of_spec, decide_True.
Qed.

Lemma reachable_well_formed {A} (v : Vector A) : reachable v -> well_formed v.
Proof. intros Hv. by apply tail_only_well_formed, reachable_tail_only. Qed.

Lemma reachable_well_stored {A} (v : Vector A) : reachable v -> well_stored v.
Proof. intros Hv. by apply tail_only_well_stored, reachable_tail_only. Qed.

End Reachable.

(** ** The specification's statements *)

Section Claims.

Import TrieVector Reach.

Lemma length_oneTo (n : nat) : length (oneTo n) = n.
Proof. unfold oneTo. by rewrite length_seqZ, Nat2Z.id. Qed.

Lemma reachable_inv {A} (v : Vector A) :
  reachable v -> exists l, v = tailVec l /\ (length l <= 32)%nat.
Proof. intros Hv. by apply tail_only_inv, reachable_tail_only. Qed.

(** C1. Appending 33 to Vector.of(1..32) is specified to return the Vector
    of size 33 with tail [33] and the old tail as a leaf of the trie.  On
    the code, Vector.of(1..32) is the tail-only Vector the scenario starts
    from (32 elements in the tail, depth 0, size 32, empty root), and
    appended(33) never returns from it, whatever the recursion budget. *)
Theorem appended_33_to_of_1_to_32_never_returns (fuel : nat) :
  of_ fuel (oneTo 32) = Ret (MkVector (MkNode []) (oneTo 32) 0 32) /\
  appended fuel (MkVector (MkNode []) (oneTo 32) 0 32) 33 = OutOfFuel.
Proof.
  split.
  - rewrite of_spec, decide_True by (rewrite length_oneTo; lia). reflexivity.
  - change (MkVector (MkNode []) (oneTo 32) 0 32) with (tailVec (oneTo 32)).
    rewrite appended_tailVec, decide_False by (rewrite length_oneTo; lia).
    reflexivity.
Qed.

(** C2. The operations are specified to be total, appended in particular on
    a Vector whose tail holds 32 elements.  On the code, appended never
    returns on any Vector the interface produces whose tail is full. *)
Theorem appended_on_full_tail_never_returns {A} (v : Vector A) (x : A) (fuel : nat) :
  reachable v -> JS.length (tail v) = WIDTH -> appended fuel v x = OutOfFuel.
Proof.
  intros (l & -> & Hl)%reachable_inv Hfull.
  cbn [tailVec tail] in Hfull. unfold JS.length, WIDTH in Hfull.
  rewrite appended_tailVec, decide_False by lia. reflexivity.
Qed.

Lemma appended_on_full_tail_never_returns_witness :
  reachable (MkVector (MkNode []) (oneTo 32) 0 32) /\
  JS.length (oneTo 32) = WIDTH /\
  appended 1000 (MkVector (MkNode []) (oneTo 32) 0 32) 33 = OutOfFuel.
Proof.
  assert (reachable (MkVector (MkNode []) (oneTo 32) 0 32)) as Hreach.
  { apply (reach_of 0 (oneTo 32)). reflexivity. }
  split; [exact Hreach|]. split; [reflexivity|].
  apply appended_on_full_tail_never_returns; [exact Hreach | reflexivity].
Defined.

(** C3. prepended is specified to return, for every Vector, a Vector one
    longer that starts with the new element.  On the code, prepending to
    the 32-element Vector.of(1..32) never returns. *)
Theorem prepended_to_of_1_to_32_never_returns (fuel : nat) :
  of_ fuel (oneTo 32) = Ret (MkVector (MkNode []) (oneTo 32) 0 32) /\
  prepended fuel (MkVector (MkNode []) (oneTo 32) 0 32) 0 = OutOfFuel.
Proof.
  split.
  - rewrite of_spec, decide_True by (rewrite length_oneTo; lia). reflexivity.
  - change (MkVector (MkNode []) (oneTo 32) 0 32) with (tailVec (oneTo 32)).
    rewrite prepended_tailVec, decide_False by (rewrite length_oneTo; lia).
    reflexivity.
Qed.

(** Below 32 elements prepended does what the contract says. *)
Lemma prepended_below_32 {A} (v : Vector A) (x : A) (fuel : nat) :
  reachable v -> size v < 32 ->
  exists v', prepended fuel v x = Ret v' /\
    size v' = size v + 1 /\
    toArray fuel v' = Ret (x :: tail v) /\
    toArray fuel v = Ret (tail v) /\
    apply fuel v' 0 = Ret x /\
    forall i, 0 <= i < size v -> apply fuel v' (i + 1) = apply fuel v i.
Proof.
  intros (l & -> & Hl)%reachable_inv Hsize.
  unfold size, tailVec at 1, JS.length in Hsize; cbn [_size] in Hsize.
  exists (tailVec (x :: l)).
  rewrite prepended_tailVec, decide_True by lia.
  rewrite !toArray_tailVec.
  repeat split.
  - unfold size, tailVec, JS.length; cbn [_size length]. lia.
  - apply (apply_tailVec_in _ (x :: l) 0%nat). reflexivity.
  - intros i Hi. unfold size, tailVec at 1, JS.length in Hi; cbn [_size] in Hi.
    destruct (lookup_lt_is_Some_2 l (Z.to_nat i) ltac:(lia)) as [a Ha].
    replace i with (Z.of_nat (Z.to_nat i)) at 2 by lia.
    rewrite (apply_tailVec_in _ _ _ _ Ha).
    replace (i + 1) with (Z.of_nat (S (Z.to_nat i))) by lia.
    by apply apply_tailVec_in.
Qed.

(** On the Vectors the interface produces the relation of size, tail and
    trie holds with an empty trie. *)
Lemma invariant_on_interface_vectors {A} (v : Vector A) :
  reachable v -> invariant v.
Proof.
  intros (l & -> & Hl)%reachable_inv.
  unfold invariant, tailVec, JS.length; cbn [tail _size root stored].
  rewrite Z.sub_diag. repeat split; lia.
Qed.



(** C5. On every Vector of the data model, with a trie or not, updating an
    index in range and reading it back gives the new element, and every
    other index in range reads the element stored there, as before. *)
Theorem updated_then_apply {A} (v : Vector A) (x : A) (i : Z) (fuel : nat) :
  well_stored v -> (Z.to_nat (depth v) < fuel)%nat -> 0 <= i < size v ->
  exists v', updated fuel v i x = Ret v' /\
    apply fuel v' i = Ret x /\
    forall j, j <> i -> 0 <= j < size v ->
      exists y, storedAt v j = Some y /\
        apply fuel v j = Ret y /\ apply fuel v' j = Ret y.
Proof.
  intros Hws Hfuel Hi.
  destruct (updated_then_apply_well_formed v x i fuel
              (well_stored_well_formed v Hws) Hfuel Hi) as (v' & Hupd & Hsame & Hother).
  exists v'. split; [exact Hupd|]. split; [exact Hsame|].
  intros j Hne Hj.
  destruct (Hother j Hne Hj) as (y & Hy & Hy').
  destruct (apply_reads_stored v j fuel Hws Hfuel Hj) as (y0 & Hst & Hy0).
  exists y. rewrite Hy in Hy0. injection Hy0 as ->. auto.
Qed.

Lemma updated_then_apply_witness :
  well_stored scenarioResult /\
  (Z.to_nat (depth scenarioResult) < 2)%nat /\
  0 <= 5 < size scenarioResult /\
  exists v', updated 2 scenarioResult 5 99 = Ret v' /\
    apply 2 v' 5 = Ret 99 /\
    forall j, j <> 5 -> 0 <= j < size scenarioResult ->
      exists y, storedAt scenarioResult j = Some y /\
        apply 2 scenarioResult j = Ret y /\ apply 2 v' j = Ret y.
Proof.
  assert (Z.to_nat (depth scenarioResult) < 2)%nat as Hfuel by (vm_compute; lia).
  assert (0 <= 5 < size scenarioResult) as Hi by (vm_compute; split; congruence).
  split; [exact scenarioResult_well_stored|]. split; [exact Hfuel|].
  split; [exact Hi|].
  exact (updated_then_apply scenarioResult 99 5 2 scenarioResult_well_stored Hfuel Hi).
Defined.

(** C6. Vector.from(arr).toArray() is specified to give back arr for every
    array, lengths 33, 1024 and 1025 included.  On the code, from never
    returns on the arrays [1..33], [1..1024] and [1..1025]. *)
Theorem from_beyond_32_elements_never_returns (fuel : nat) :
  from fuel (oneTo 33) = OutOfFuel /\
  from fuel (oneTo 1024) = OutOfFuel /\
  from fuel (oneTo 1025) = OutOfFuel.
Proof.
  rewrite !from_spec.
  rewrite !decide_False by (rewrite length_oneTo; lia).
  done.
Qed.

(** Up to 32 elements the round trip holds; beyond, from never returns. *)
Lemma from_toArray {A} (arr : list A) (fuel : nat) :
  (v ← from fuel arr; toArray fuel v) =
    if decide (length arr <= 32)%nat then Ret arr else OutOfFuel.
Proof.
  rewrite from_spec. case_decide; [|reflexivity].
  by rewrite bind_Ret, toArray_tailVec.
Qed.

Lemma Some_spec {A} `{JS.Nullish A} (x : A) :
  Option.Some x = Ret (if JS.is_nullish x then Option.NoneImpl else Option.SomeImpl x).
Proof.
  unfold Option.Some, Option.newSomeImpl, Option.None.
  by destruct (JS.is_nullish x).
Qed.

Lemma get_tailVec_in {A} `{JS.Nullish A} (l : list A) (k : nat) (x : A) (fuel : nat) :
  l !! k = Some x ->
  get fuel (tailVec l) (Z.of_nat k) =
    Ret (if JS.is_nullish x then Option.NoneImpl else Option.SomeImpl x).
Proof.
  intros Hk. pose proof (lookup_lt_Some _ _ _ Hk) as Hlt.
  unfold get. rewrite (apply_tailVec_in _ _ _ _ Hk), bind_Ret, Some_spec.
  unfold tailVec, JS.length; cbn [_size].
  destruct (Z.ltb_spec (Z.of_nat k) 0); [lia|].
  destruct (Z.geb_spec (Z.of_nat k) (Z.of_nat (length l))); [lia|].
  reflexivity.
Qed.

Lemma get_out {A} `{JS.Nullish A} (v : Vector A) (i : Z) (fuel : nat) :
  i < 0 \/ size v <= i -> get fuel v i = Ret Option.None.
Proof.
  intros Hi. unfold get, size in *.
  destruct (Z.ltb_spec i 0), (Z.geb_spec i (_size v)); cbn [orb]; (reflexivity || lia).
Qed.

(** C7. On every Vector value apply raises the out-of-bounds error exactly
    when the index is negative or at least the size; on a Vector of the
    data model an index in range returns the element stored there; and no
    other operation raises the out-of-bounds error. *)
Theorem apply_raises_exactly_out_of_range {A} (v : Vector A) :
  (forall fuel i,
     apply fuel v i = Throw (IndexOutOfBounds i) <-> i < 0 \/ i >= size v) /\
  (forall fuel i, raises_out_of_range (apply fuel v i) <-> i < 0 \/ i >= size v) /\
  (well_stored v -> forall fuel i,
     (Z.to_nat (depth v) < fuel)%nat -> 0 <= i < size v ->
     exists x, storedAt v i = Some x /\ apply fuel v i = Ret x) /\
  (forall fuel i (N : JS.Nullish A), ~ raises_out_of_range (get fuel v i)) /\
  (forall fuel i x, ~ raises_out_of_range (updated fuel v i x)) /\
  (forall fuel x, ~ raises_out_of_range (appended fuel v x)) /\
  (0 <= size v -> forall fuel x, ~ raises_out_of_range (prepended fuel v x)) /\
  (forall fuel w, ~ raises_out_of_range (appendAll fuel v w)) /\
  (forall fuel p, ~ raises_out_of_range (filter fuel v p)) /\
  (forall fuel B (f : A -> B), ~ raises_out_of_range (map fuel v f)) /\
  (forall fuel B (f : A -> Vector B), ~ raises_out_of_range (flatMap fuel v f)) /\
  (forall fuel, ~ raises_out_of_range (toArray fuel v)) /\
  (forall fuel (elements : list A),
     ~ raises_out_of_range (of_ fuel elements) /\
     ~ raises_out_of_range (from fuel elements)).
Proof.
  split; [|split; [|split; [|split; [|split; [|split; [|split; [|split;
    [|split; [|split; [|split; [|split]]]]]]]]]]].
  - intros fuel i. split.
    + intros Happ. apply (apply_out_of_range_iff fuel). by exists i.
    + intros Hi. unfold apply, size in *.
      destruct (Z.ltb_spec i 0), (Z.geb_spec i (_size v)); cbn [orb];
        (reflexivity || lia).
  - intros fuel i. apply apply_out_of_range_iff.
  - intros Hws fuel i Hfuel Hi. by apply apply_reads_stored.
  - intros fuel i N. apply quiet_get.
  - intros fuel i x. apply quiet_updated.
  - intros fuel x. apply quiet_appended.
  - intros Hsize fuel x. by apply quiet_prepended.
  - intros fuel w. apply quiet_appendAll.
  - intros fuel p. apply quiet_filter.
  - intros fuel B f. apply quiet_map.
  - intros fuel B f. apply quiet_flatMap.
  - intros fuel. apply quiet_toArray.
  - intros fuel elements. split; apply quiet_of.
Qed.

Lemma apply_raises_exactly_out_of_range_witness :
  well_stored scenarioResult /\
  (Z.to_nat (depth scenarioResult) < 2)%nat /\
  0 <= 31 < size scenarioResult /\
  (exists x, storedAt scenarioResult 31 = Some x /\ apply 2 scenarioResult 31 = Ret x) /\
  apply 2 scenarioResult 33 = Throw (IndexOutOfBounds 33).
Proof.
  assert (Z.to_nat (depth scenarioResult) < 2)%nat as Hfuel by (vm_compute; lia).
  assert (0 <= 31 < size scenarioResult) as Hi by (vm_compute; split; congruence).
  split; [exact scenarioResult_well_stored|]. split; [exact Hfuel|].
  split; [exact Hi|]. split.
  - exact (proj1 (proj2 (proj2 (apply_raises_exactly_out_of_range scenarioResult)))
             scenarioResult_well_stored 2%nat 31 Hfuel Hi).
  - apply (proj1 (apply_raises_exactly_out_of_range scenarioResult)).
    right. vm_compute. congruence.
Defined.

(** C8 as stated fails: on Vector.of(1, null, 3, undefined, 5) the indices
    1 and 3 are in range and get returns the absent value there. *)
Lemma get_of_null_element_is_absent :
  of_ 0 [JS.just 1; JS.null; JS.just 3; JS.undefined; JS.just 5] =
    Ret (MkVector (MkNode []) [JS.just 1; JS.null; JS.just 3; JS.undefined; JS.just 5] 0 5) /\
  0 <= 1 < size (MkVector (MkNode []) [JS.just 1; JS.null; JS.just 3; JS.undefined; JS.just 5] 0 5) /\
  get 0 (MkVector (MkNode []) [JS.just 1; JS.null; JS.just 3; JS.undefined; JS.just 5] 0 5) 1 =
    Ret Option.None /\
  get 0 (MkVector (MkNode []) [JS.just 1; JS.null; JS.just 3; JS.undefined; JS.just 5] 0 5) 3 =
    Ret Option.None /\
  apply 0 (MkVector (MkNode []) [JS.just 1; JS.null; JS.just 3; JS.undefined; JS.just 5] 0 5) 1 =
    Ret JS.null.
Proof. repeat apply conj; try reflexivity; unfold size; simpl; lia. Qed.

(** C8, amended. On every Vector value get returns the absent value when
    the index is negative or at least the size; on a Vector of the data
    model, with a trie or not, an index in range gives the absent value
    when the element stored there is null or undefined and otherwise the
    present value holding that element, which is what apply returns; get
    returns on every index and raises nothing. *)
Theorem get_absent_or_present {A} `{JS.Nullish A} (v : Vector A) (i : Z) (fuel : nat) :
  (i < 0 \/ i >= size v -> get fuel v i = Ret Option.None) /\
  (well_stored v -> (Z.to_nat (depth v) < fuel)%nat -> 0 <= i < size v ->
     exists x, storedAt v i = Some x /\ apply fuel v i = Ret x /\
       get fuel v i =
         Ret (if JS.is_nullish x then Option.None else Option.SomeImpl x)) /\
  (well_stored v -> (Z.to_nat (depth v) < fuel)%nat ->
     exists o, get fuel v i = Ret o).
Proof.
  assert (well_stored v -> (Z.to_nat (depth v) < fuel)%nat -> 0 <= i < size v ->
     exists x, storedAt v i = Some x /\ apply fuel v i = Ret x /\
       get fuel v i =
         Ret (if JS.is_nullish x then Option.None else Option.SomeImpl x)) as Hin.
  { intros Hws Hfuel Hi.
    destruct (apply_reads_stored v i fuel Hws Hfuel Hi) as (x & Hst & Happ).
    exists x. split; [exact Hst|]. split; [exact Happ|].
    unfold get, size in *.
    destruct (Z.ltb_spec i 0), (Z.geb_spec i (_size v)); try lia. cbn [orb].
    by rewrite Happ, bind_Ret, Some_spec. }
  split; [|split; [exact Hin|]].
  - intros Hi. apply get_out. lia.
  - intros Hws Hfuel.
    destruct (decide (0 <= i < size v)) as [Hi|Hi].
    + destruct (Hin Hws Hfuel Hi) as (x & _ & _ & ->). eauto.
    + rewrite get_out by lia. eauto.
Qed.

Lemma get_absent_or_present_witness :
  well_stored scenarioNullable /\
  (Z.to_nat (depth scenarioNullable) < 2)%nat /\
  0 <= 1 < size scenarioNullable /\
  exists x, storedAt scenarioNullable 1 = Some x /\
    apply 2 scenarioNullable 1 = Ret x /\
    get 2 scenarioNullable 1 =
      Ret (if JS.is_nullish x then Option.None else Option.SomeImpl x).
Proof.
  assert (Z.to_nat (depth scenarioNullable) < 2)%nat as Hfuel by (vm_compute; lia).
  assert (0 <= 1 < size scenarioNullable) as Hi by (vm_compute; split; congruence).
  split; [exact scenarioNullable_well_stored|]. split; [exact Hfuel|].
  split; [exact Hi|].
  exact (proj1 (proj2 (get_absent_or_present scenarioNullable 1 2))
           scenarioNullable_well_stored Hfuel Hi).
Defined.

(** C9. On every Vector, updated with an index that is negative or at
    least the size returns the receiver itself and raises nothing; in
    particular Vector.of(1, 2, 3).updated(10, 99).toArray() is [1, 2, 3]. *)
Theorem updated_out_of_range_returns_receiver {A} (v : Vector A) (x : A) (i : Z)
  (fuel : nat) :
  i < 0 \/ i >= size v ->
  updated fuel v i x = Ret v /\
  (v0 ← of_ fuel [1; 2; 3]; v1 ← updated fuel v0 10 99; toArray fuel v1)
    = Ret [1; 2; 3].
Proof.
  intros Hi. split.
  - unfold updated, size in *.
    destruct (Z.ltb_spec i 0), (Z.geb_spec i (_size v)); cbn [orb];
      (reflexivity || lia).
  - rewrite of_spec, decide_True by (simpl; lia).
    rewrite bind_Ret, updated_tailVec, decide_False, bind_Ret
      by (unfold JS.length; simpl; lia).
    apply toArray_tailVec.
Qed.

Lemma updated_out_of_range_returns_receiver_witness :
  (10 < 0 \/ 10 >= size (MkVector (MkNode []) [1; 2; 3] 0 3)) /\
  updated 0 (MkVector (MkNode []) [1; 2; 3] 0 3) 10 99 =
    Ret (MkVector (MkNode []) [1; 2; 3] 0 3).
Proof.
  assert (10 < 0 \/ 10 >= size (MkVector (MkNode []) [1; 2; 3] 0 3)) as Hi.
  { right. unfold size; simpl; lia. }
  split; [exact Hi|].
  exact (proj1 (updated_out_of_range_returns_receiver _ 99 10 0%nat Hi)).
Defined.

(** The array-backed class does the same. *)
Lemma ArrayVector_updated_out_of_range {A} (v : ArrayVector.Vector A) (x : A) (i : Z) :
  i < 0 \/ i >= ArrayVector.size v -> ArrayVector.updated v i x = v.
Proof.
  intros Hi. unfold ArrayVector.updated, ArrayVector.size in *.
  destruct (Z.ltb_spec i 0), (Z.geb_spec i (JS.length (ArrayVector.data v)));
    cbn [orb]; (reflexivity || lia).
Qed.

(** C10. The two classes are specified to agree on every sequence of
    operations.  On the code they part at the 33rd element: after
    of(1..32) and appended(33) the array-backed Vector has size 33 and
    holds 1..33, while the trie-based appended never returns. *)
Theorem trie_and_array_vectors_part_at_33 (fuel : nat) :
  (v ← of_ fuel (oneTo 32); appended fuel v 33) = OutOfFuel /\
  ArrayVector.size (ArrayVector.appended (ArrayVector.of_ (oneTo 32)) 33) = 33 /\
  ArrayVector.toArray (ArrayVector.appended (ArrayVector.of_ (oneTo 32)) 33)
    = oneTo 33.
Proof.
  split; [|split; reflexivity].
  rewrite of_spec, decide_True by (rewrite length_oneTo; lia).
  rewrite bind_Ret, appended_tailVec, decide_False by (rewrite length_oneTo; lia).
  reflexivity.
Qed.

(** X23. What does hold between the two classes: on every Vector the
    interface produces, size, isEmpty, toArray, apply and get give what
    the array-backed Vector with the same elements gives. *)
Lemma observations_agree {A} `{JS.Nullish A} (v : Vector A) (fuel : nat) :
  reachable v ->
  size v = ArrayVector.size (toArrayVector v) /\
  isEmpty v = ArrayVector.isEmpty (toArrayVector v) /\
  toArray fuel v = Ret (ArrayVector.toArray (toArrayVector v)) /\
  (forall i, apply fuel v i = ArrayVector.apply (toArrayVector v) i) /\
  (forall i, get fuel v i = ArrayVector.get (toArrayVector v) i).
Proof.
  intros (l & -> & Hl)%reachable_inv.
  assert (forall i, 0 <= i < JS.length l -> exists x,
            l !! Z.to_nat i = Some x /\ JS.index l i = Some x /\
            apply fuel (tailVec l) i = Ret x) as Hin.
  { intros i Hi. unfold JS.length in Hi.
    destruct (lookup_lt_is_Some_2 l (Z.to_nat i) ltac:(lia)) as [x Hx].
    exists x. replace i with (Z.of_nat (Z.to_nat i)) at 2 3 by lia.
    rewrite index_lookup. auto using apply_tailVec_in. }
  repeat apply conj; try reflexivity.
  - apply toArray_tailVec.
  - intros i. unfold ArrayVector.apply, toArrayVector; cbn [tailVec tail ArrayVector.data].
    destruct (Z.ltb_spec i 0), (Z.geb_spec i (JS.length l)); cbn [orb];
      try (apply apply_tailVec_out; lia).
    destruct (Hin i ltac:(lia)) as (x & _ & -> & ->). reflexivity.
  - intros i. unfold ArrayVector.get, toArrayVector; cbn [tailVec tail ArrayVector.data].
    destruct (Z.ltb_spec i 0), (Z.geb_spec i (JS.length l)); cbn [orb];
      try (apply get_out; unfold size, tailVec; cbn [_size]; lia).
    destruct (Hin i ltac:(lia)) as (x & Hx & -> & _).
    replace i with (Z.of_nat (Z.to_nat i)) by lia.
    by rewrite (get_tailVec_in _ _ _ _ Hx), Some_spec.
Qed.

Lemma fold_left_concat {X Y} (g : X -> list Y) (xs : list X) (acc : list Y) :
  List.fold_left (fun result elem => result ++ g elem) xs acc = acc ++ concat (g <$> xs).
Proof.
  revert acc. induction xs as [|x xs IH]; intros acc; cbn.
  - by rewrite app_nil_r.
  - by rewrite IH, app_assoc.
Qed.

(** X24. Whenever a trie-based operation returns on Vectors the interface
    produces, its result holds the elements of the result of the
    array-backed operation on the same elements. *)
Lemma operations_agree_when_returning {A} (v w : Vector A) (fuel : nat) :
  reachable v -> reachable w ->
  (forall i x v', updated fuel v i x = Ret v' ->
     toArrayVector v' = ArrayVector.updated (toArrayVector v) i x) /\
  (forall x v', appended fuel v x = Ret v' ->
     toArrayVector v' = ArrayVector.appended (toArrayVector v) x) /\
  (forall x v', prepended fuel v x = Ret v' ->
     toArrayVector v' = ArrayVector.prepended (toArrayVector v) x) /\
  (forall v', appendAll fuel v w = Ret v' ->
     toArrayVector v' = ArrayVector.appendAll (toArrayVector v) (toArrayVector w)) /\
  (forall p v', filter fuel v p = Ret v' ->
     toArrayVector v' = ArrayVector.filter (toArrayVector v) p) /\
  (forall B (f : A -> B) v', map fuel v f = Ret v' ->
     toArrayVector v' = ArrayVector.map (toArrayVector v) f) /\
  (forall B (f : A -> Vector B) v',
     (forall a, reachable (f a)) -> flatMap fuel v f = Ret v' ->
     toArrayVector v' =
       ArrayVector.flatMap (toArrayVector v) (fun a => toArrayVector (f a))) /\
  (forall (elements : list A) v', of_ fuel elements = Ret v' ->
     toArrayVector v' = ArrayVector.of_ elements).
Proof.
  intros (l & -> & Hl)%reachable_inv (l' & -> & Hl')%reachable_inv.
  repeat apply conj.
  - intros i x v'. rewrite updated_tailVec. intros <-%Ret_inj.
    unfold ArrayVector.updated, toArrayVector; cbn [tailVec tail ArrayVector.data].
    destruct (Z.ltb_spec i 0), (Z.geb_spec i (JS.length l)); cbn [orb];
      (rewrite decide_False by lia) || (rewrite decide_True by lia); reflexivity.
  - intros x v'. rewrite appended_tailVec by done.
    case_decide; [|discriminate]. by intros <-%Ret_inj.
  - intros x v'. rewrite prepended_tailVec by done.
    case_decide; [|discriminate]. by intros <-%Ret_inj.
  - intros v'. rewrite appendAll_tailVec by done.
    case_decide; [|discriminate]. by intros <-%Ret_inj.
  - intros p v'. rewrite filter_tailVec by done. by intros <-%Ret_inj.
  - intros B f v'. rewrite map_tailVec. by intros <-%Ret_inj.
  - intros B f v' Hf. rewrite flatMap_tailVec
      by (intros a _; apply reachable_tail_only, Hf).
    cbv zeta. case_decide; [|discriminate]. intros <-%Ret_inj.
    unfold ArrayVector.flatMap, toArrayVector; cbn [tailVec tail ArrayVector.data].
    by rewrite fold_left_concat.
  - intros elements v'. rewrite of_spec.
    case_decide; [|discriminate]. by intros <-%Ret_inj.
Qed.

End Claims.

(** ** Further properties of the trie-based Vector *)

Section TrieExtras.

Import TrieVector Reach.

(** X1. The Vectors the public interface produces are exactly the
    tail-only ones: empty root, depth 0, the size equal to the tail length
    and at most 32. *)
Theorem reachable_iff_within_tail {A} (v : Vector A) :
  reachable v <->
  root v = MkNode [] /\ depth v = 0 /\ _size v = JS.length (tail v) /\
  JS.length (tail v) <= 32.
Proof.
  split.
  - intros (l & -> & Hl)%reachable_inv.
    unfold tailVec, JS.length; cbn [root depth _size tail]. repeat split; lia.
  - intros (Hroot & Hdepth & Hsize & Hlen).
    apply tail_only_reachable. destruct v as [rt tl dp sz].
    cbn [root depth _size tail] in *. subst.
    split; [reflexivity|]. unfold JS.length in Hlen. cbn [tail]. lia.
Qed.

(** X2. pushTail hands back a node only when it is entered at level 1 or
    above: from level 0 or below no call returns a node, on any node and
    with any recursion budget; from level n >= 1 a budget of n calls is
    enough for it to finish. *)
Theorem pushTail_returns_only_from_level_1 {A} (fuel : nat) (node tailNode : Node A)
  (index level : Z) :
  (level <= 0 -> forall n, pushTail fuel node index tailNode level <> Ret n) /\
  (1 <= level -> (Z.to_nat level <= fuel)%nat ->
   pushTail fuel node index tailNode level <> OutOfFuel).
Proof.
  split.
  - revert node level. induction fuel as [|fuel IH]; intros node level Hlevel n;
      [discriminate|].
    cbn [pushTail]. destruct (Z.eqb_spec level 1) as [->|_]; [lia|].
    intros Hret. apply bind_Ret_inv in Hret as (child & _ & Hret).
    apply bind_Ret_inv in Hret as (newChild & Hrec & _).
    by apply (IH child (level - 1) ltac:(lia) newChild).
  - revert node level. induction fuel as [|fuel IH]; intros node level Hlevel Hfuel;
      [lia|].
    cbn [pushTail]. destruct (Z.eqb_spec level 1) as [->|Hne]; [discriminate|].
    destruct (if _ <? _ then _ else _) as [child| |] eqn:Hchild.
    + rewrite bind_Ret.
      specialize (IH child (level - 1) ltac:(lia) ltac:(lia)).
      by destruct (pushTail fuel child index tailNode (level - 1)).
    + discriminate.
    + exfalso. destruct (_ <? _); [|discriminate].
      unfold asNode in Hchild. by repeat case_match.
Qed.

Lemma pushTail_returns_only_from_level_1_witness :
  0 <= 0 /\
  forall n, pushTail 7 (MkNode [CNode (MkNode [CVal 1])]) 0 (MkNode [CVal 2]) 0 <> Ret n.
Proof.
  split; [lia|].
  apply (proj1 (pushTail_returns_only_from_level_1 7 _ _ 0 0)). lia.
Defined.

Lemma size_tailVec {A} (l : list A) : size (tailVec l) = Z.of_nat (length l).
Proof. reflexivity. Qed.

(** X3. Below 32 elements appended returns a Vector one longer whose last
    index reads the new element, whose earlier indices read as before and
    whose toArray is the old one followed by the element. *)
Theorem appended_below_32 {A} (v : Vector A) (x : A) (fuel : nat) :
  reachable v -> size v < 32 ->
  exists v' xs, appended fuel v x = Ret v' /\
    size v' = size v + 1 /\
    apply fuel v' (size v) = Ret x /\
    (forall i, 0 <= i < size v -> apply fuel v' i = apply fuel v i) /\
    toArray fuel v = Ret xs /\
    toArray fuel v' = Ret (xs ++ [x]).
Proof.
  intros (l & -> & Hl)%reachable_inv Hsize. rewrite size_tailVec in *.
  exists (tailVec (l ++ [x])), l.
  rewrite appended_tailVec, decide_True by lia.
  rewrite !toArray_tailVec, size_tailVec, length_app. cbn [length].
  repeat apply conj; try reflexivity; try lia.
  - apply apply_tailVec_in. by rewrite lookup_app_r, Nat.sub_diag.
  - intros i Hi.
    destruct (lookup_lt_is_Some_2 l (Z.to_nat i) ltac:(lia)) as [a Ha].
    replace i with (Z.of_nat (Z.to_nat i)) by lia.
    rewrite (apply_tailVec_in _ _ _ _ Ha).
    apply apply_tailVec_in. by rewrite lookup_app_l by lia.
Qed.

Lemma appended_below_32_witness :
  reachable (MkVector (MkNode []) [1; 2; 3] 0 3) /\
  size (MkVector (MkNode []) [1; 2; 3] 0 3) < 32 /\
  exists v' xs, appended 0 (MkVector (MkNode []) [1; 2; 3] 0 3) 4 = Ret v' /\
    size v' = size (MkVector (MkNode []) [1; 2; 3] 0 3) + 1 /\
    apply 0 v' (size (MkVector (MkNode []) [1; 2; 3] 0 3)) = Ret 4 /\
    (forall i, 0 <= i < size (MkVector (MkNode []) [1; 2; 3] 0 3) ->
       apply 0 v' i = apply 0 (MkVector (MkNode []) [1; 2; 3] 0 3) i) /\
    toArray 0 (MkVector (MkNode []) [1; 2; 3] 0 3) = Ret xs /\
    toArray 0 v' = Ret (xs ++ [4]).
Proof.
  assert (reachable (MkVector (MkNode []) [1; 2; 3] 0 3)) as Hreach.
  { apply (reach_of 0 [1; 2; 3]). reflexivity. }
  assert (size (MkVector (MkNode []) [1; 2; 3] 0 3) < 32) as Hsize.
  { unfold size; simpl; lia. }
  split; [exact Hreach|]. split; [exact Hsize|].
  exact (appended_below_32 _ 4 0%nat Hreach Hsize).
Defined.

(** X4. of and from return, for an array of at most 32 elements, the
    Vector of that size whose toArray is the array; for a longer array
    they never return. *)
Theorem of_and_from_up_to_32_only {A} (elements : list A) (fuel : nat) :
  ((length elements <= 32)%nat ->
   exists v, of_ fuel elements = Ret v /\ from fuel elements = Ret v /\
     size v = JS.length elements /\ toArray fuel v = Ret elements) /\
  ((32 < length elements)%nat ->
   of_ fuel elements = OutOfFuel /\ from fuel elements = OutOfFuel).
Proof.
  rewrite from_spec, of_spec. split; intros Hlen.
  - rewrite decide_True by exact Hlen. exists (tailVec elements).
    by rewrite toArray_tailVec.
  - by rewrite decide_False by lia.
Qed.

Lemma of_and_from_up_to_32_only_witness :
  (32 < length (oneTo 40))%nat /\
  of_ 5 (oneTo 40) = OutOfFuel /\ from 5 (oneTo 40) = OutOfFuel.
Proof.
  assert (32 < length (oneTo 40))%nat as Hlen by (vm_compute; lia).
  split; [exact Hlen|].
  exact (proj2 (of_and_from_up_to_32_only (oneTo 40) 5) Hlen).
Defined.

(** X5. appendAll returns the concatenation when the two Vectors hold at
    most 32 elements together, and never returns when they hold more. *)
Theorem appendAll_up_to_32_only {A} (v w : Vector A) (fuel : nat) :
  reachable v -> reachable w ->
  (size v + size w <= 32 ->
   exists r xs ys, appendAll fuel v w = Ret r /\
     toArray fuel v = Ret xs /\ toArray fuel w = Ret ys /\
     toArray fuel r = Ret (xs ++ ys) /\ size r = size v + size w) /\
  (32 < size v + size w -> appendAll fuel v w = OutOfFuel).
Proof.
  intros (l & -> & Hl)%reachable_inv (l' & -> & Hl')%reachable_inv.
  rewrite !size_tailVec, appendAll_tailVec by done. split; intros Hsum.
  - rewrite decide_True by lia. exists (tailVec (l ++ l')), l, l'.
    rewrite !toArray_tailVec, size_tailVec, length_app.
    repeat apply conj; try reflexivity; lia.
  - by rewrite decide_False by lia.
Qed.

Lemma appendAll_up_to_32_only_witness :
  reachable (MkVector (MkNode []) (oneTo 20) 0 20) /\
  32 < size (MkVector (MkNode []) (oneTo 20) 0 20)
       + size (MkVector (MkNode []) (oneTo 20) 0 20) /\
  appendAll 9 (MkVector (MkNode []) (oneTo 20) 0 20)
              (MkVector (MkNode []) (oneTo 20) 0 20) = OutOfFuel.
Proof.
  assert (reachable (MkVector (MkNode []) (oneTo 20) 0 20)) as Hreach.
  { apply (reach_of 0 (oneTo 20)). reflexivity. }
  assert (32 < size (MkVector (MkNode []) (oneTo 20) 0 20)
               + size (MkVector (MkNode []) (oneTo 20) 0 20)) as Hsum.
  { unfold size; simpl; lia. }
  split; [exact Hreach|]. split; [exact Hsum|].
  exact (proj2 (appendAll_up_to_32_only _ _ 9%nat Hreach Hreach) Hsum).
Defined.





(** X8. flatMap lays the Vectors the callback returns end to end: it
    returns their concatenation when that holds at most 32 elements and
    never returns when it holds more. *)
Theorem flatMap_up_to_32_only {A B} (v : Vector A) (f : A -> Vector B) (fuel : nat) :
  reachable v -> (forall a, reachable (f a)) ->
  exists xs, toArray fuel v = Ret xs /\
    (forall a, toArray fuel (f a) = Ret (tail (f a))) /\
    ((length (concat ((fun a => tail (f a)) <$> xs)) <= 32)%nat ->
     exists r, flatMap fuel v f = Ret r /\
       toArray fuel r = Ret (concat ((fun a => tail (f a)) <$> xs))) /\
    ((32 < length (concat ((fun a => tail (f a)) <$> xs)))%nat ->
     flatMap fuel v f = OutOfFuel).
Proof.
  intros (l & -> & Hl)%reachable_inv Hf.
  exists l. rewrite toArray_tailVec.
  rewrite flatMap_tailVec by (intros a _; apply reachable_tail_only, Hf).
  cbv zeta. repeat apply conj; try reflexivity.
  - intros a. destruct (reachable_inv _ (Hf a)) as (la & -> & _).
    apply toArray_tailVec.
  - intros Hlen. rewrite decide_True by exact Hlen.
    eexists. split; [reflexivity|]. apply toArray_tailVec.
  - intros Hlen. by rewrite decide_False by lia.
Qed.

Lemma flatMap_up_to_32_only_witness :
  reachable (MkVector (MkNode []) [1; 2] 0 2) /\
  (forall a : Z, reachable (MkVector (MkNode []) [a; a * 10] 0 2)) /\
  exists xs, toArray 0 (MkVector (MkNode []) [1; 2] 0 2) = Ret xs /\
    (forall a : Z, toArray 0 (MkVector (MkNode []) [a; a * 10] 0 2) = Ret [a; a * 10]) /\
    ((length (concat ((fun a : Z => [a; a * 10]%Z) <$> xs)) <= 32)%nat ->
     exists r, flatMap 0 (MkVector (MkNode []) [1; 2] 0 2)
                 (fun a => MkVector (MkNode []) [a; a * 10] 0 2) = Ret r /\
       toArray 0 r = Ret (concat ((fun a : Z => [a; a * 10]%Z) <$> xs))) /\
    ((32 < length (concat ((fun a : Z => [a; a * 10]%Z) <$> xs)))%nat ->
     flatMap 0 (MkVector (MkNode []) [1; 2] 0 2)
       (fun a => MkVector (MkNode []) [a; a * 10] 0 2) = OutOfFuel).
Proof.
  assert (reachable (MkVector (MkNode []) [1; 2] 0 2)) as Hreach.
  { apply (reach_of 0 [1; 2]). reflexivity. }
  assert (forall a : Z, reachable (MkVector (MkNode []) [a; a * 10] 0 2)) as Hf.
  { intros a. apply (reach_of 0 [a; a * 10]). reflexivity. }
  split; [exact Hreach|]. split; [exact Hf|].
  exact (flatMap_up_to_32_only (MkVector (MkNode []) [1; 2] 0 2)
           (fun a => MkVector (MkNode []) [a; a * 10] 0 2) 0%nat Hreach Hf).
Defined.

(** X9. prepended on a Vector of fewer than 32 elements returns the Vector
    that starts with the new element and goes on with the old ones; on a
    Vector of 32 elements it never returns. *)
Theorem prepended_up_to_32_only {A} (v : Vector A) (x : A) (fuel : nat) :
  reachable v ->
  (size v < 32 ->
   exists v' xs, prepended fuel v x = Ret v' /\
     size v' = size v + 1 /\
     toArray fuel v = Ret xs /\ toArray fuel v' = Ret (x :: xs)) /\
  (size v = 32 -> prepended fuel v x = OutOfFuel).
Proof.
  intros (l & -> & Hl)%reachable_inv.
  assert (size (tailVec l) = Z.of_nat (length l)) as -> by reflexivity.
  rewrite prepended_tailVec by done. split; intros Hsize.
  - rewrite decide_True by lia. exists (tailVec (x :: l)), l.
    rewrite !toArray_tailVec.
    repeat apply conj; try reflexivity.
    unfold size, tailVec, JS.length; cbn [_size length]. lia.
  - by rewrite decide_False by lia.
Qed.

Lemma prepended_up_to_32_only_witness :
  reachable (MkVector (MkNode []) (oneTo 32) 0 32) /\
  size (MkVector (MkNode []) (oneTo 32) 0 32) = 32 /\
  prepended 50 (MkVector (MkNode []) (oneTo 32) 0 32) 0 = OutOfFuel.
Proof.
  assert (reachable (MkVector (MkNode []) (oneTo 32) 0 32)) as Hreach.
  { apply (reach_of 0 (oneTo 32)). reflexivity. }
  split; [exact Hreach|]. split; [reflexivity|].
  exact (proj2 (prepended_up_to_32_only _ 0 50%nat Hreach) eq_refl).
Defined.

(** The loop of toArray after [n] rounds. *)
Lemma toArray_rounds {A} (v : Vector A) (fuel n : nat) (xs : list A) :
  forUpTo n (fun i result => x ← apply fuel v i; Ret (result ++ [x])) [] = Ret xs ->
  length xs = n /\
  forall k, (k < n)%nat -> exists x, xs !! k = Some x /\ apply fuel v (Z.of_nat k) = Ret x.
Proof.
  revert xs. induction n as [|n IH]; intros xs; cbn [forUpTo].
  - intros [= <-]. split; [reflexivity|]. intros k Hk. lia.
  - intros Hloop. apply bind_Ret_inv in Hloop as (ys & Hys & Hloop).
    apply bind_Ret_inv in Hloop as (x & Hx & [= <-]).
    destruct (IH ys Hys) as [Hlen Hread].
    split; [rewrite length_app; simpl; lia|].
    intros k Hk. destruct (decide (k = n)) as [->|Hne].
    + exists x. split; [|exact Hx].
      by rewrite lookup_app_r, Hlen, Nat.sub_diag by lia.
    + destruct (Hread k ltac:(lia)) as (y & Hy & Hay).
      exists y. split; [|exact Hay]. by rewrite lookup_app_l by lia.
Qed.

(** X10. On any Vector value, with a trie or not: when toArray returns an
    array, the array has size() elements and its element i is what
    apply(i) returns. *)
Theorem toArray_lists_what_apply_reads {A} (v : Vector A) (fuel : nat) (xs : list A) :
  toArray fuel v = Ret xs ->
  length xs = Z.to_nat (size v) /\
  forall i, 0 <= i < size v ->
    exists x, xs !! Z.to_nat i = Some x /\ apply fuel v i = Ret x.
Proof.
  intros Hxs. apply toArray_rounds in Hxs as [Hlen Hread].
  split; [exact Hlen|]. intros i Hi. unfold size in *.
  destruct (Hread (Z.to_nat i) ltac:(lia)) as (x & Hx & Happ).
  exists x. split; [exact Hx|]. by rewrite Z2Nat.id in Happ by lia.
Qed.

Lemma toArray_lists_what_apply_reads_witness :
  toArray 2 scenarioResult = Ret (oneTo 33) /\
  length (oneTo 33) = Z.to_nat (size scenarioResult) /\
  forall i, 0 <= i < size scenarioResult ->
    exists x, oneTo 33 !! Z.to_nat i = Some x /\ apply 2 scenarioResult i = Ret x.
Proof.
  assert (toArray 2 scenarioResult = Ret (oneTo 33)) as Hxs by (vm_compute; reflexivity).
  split; [exact Hxs|].
  exact (toArray_lists_what_apply_reads scenarioResult 2 (oneTo 33) Hxs).
Defined.

Lemma getElem_less_fuel {A} d : forall fuel (node : Node A) i y,
  getElem fuel node i (Z.of_nat d) = Ret y -> (d < fuel)%nat ->
  getElem (S d) node i (Z.of_nat d) = Ret y.
Proof.
  induction d as [|d IH]; intros fuel node i y Hget Hfuel;
    (destruct fuel as [|fuel]; [lia|]).
  - exact Hget.
  - rewrite getElem_inner in Hget |- *.
    apply bind_Ret_inv in Hget as (child & -> & Hget).
    rewrite bind_Ret. apply (IH fuel); [exact Hget | lia].
Qed.

Lemma updated_keeps_shape {A} (v v' : Vector A) (x : A) (i : Z) (fuel : nat) :
  updated fuel v i x = Ret v' ->
  _size v' = _size v /\ depth v' = depth v /\ length (tail v') = length (tail v).
Proof.
  unfold updated. destruct (_ || _); [by intros [= <-]|].
  destruct (_ >=? _).
  - intros [= <-]. cbn. by rewrite length_insert.
  - intros (? & _ & [= <-])%bind_Ret_inv. done.
Qed.

(** X11. On a well-formed Vector with a trie (hand-built: the interface
    produces none), updated at an index in range returns a well-formed
    Vector of the same size, depth and tail length that reads the new
    element at the index and reads every other index as before. *)
Theorem updated_on_well_formed_trie {A} (v : Vector A) (x : A) (i : Z) (fuel : nat) :
  well_formed v -> (Z.to_nat (depth v) < fuel)%nat -> 0 <= i < size v ->
  exists v', updated fuel v i x = Ret v' /\
    well_formed v' /\
    size v' = size v /\ depth v' = depth v /\
    length (tail v') = length (tail v) /\
    apply fuel v' i = Ret x /\
    forall j, j <> i -> 0 <= j < size v ->
      exists y, apply fuel v j = Ret y /\ apply fuel v' j = Ret y.
Proof.
  intros Hwf Hfuel Hi.
  destruct (updated_then_apply_well_formed v x i fuel Hwf Hfuel Hi)
    as (v' & Hupd & Hsame & Hother).
  destruct (updated_keeps_shape _ _ _ _ _ Hupd) as (Hsz & Hdp & Htl).
  assert (well_formed v') as Hwf'.
  { destruct Hwf as (Hd & Hcap & Hpaths). unfold size in *.
    unfold well_formed. rewrite Hsz, Hdp. unfold JS.length in *. rewrite Htl.
    split; [lia|]. split; [lia|].
    intros j Hj.
    assert (exists y, apply fuel v' j = Ret y) as [y Hy].
    { destruct (decide (j = i)) as [->|Hne]; [by exists x|].
      destruct (Hother j Hne ltac:(lia)) as (y & _ & Hy). by exists y. }
    exists y. rewrite apply_trie_region in Hy by (unfold JS.length; lia).
    rewrite Hdp in Hy.
    replace (depth v) with (Z.of_nat (Z.to_nat (depth v))) in Hy |- * by lia.
    rewrite Nat2Z.id. by apply (getElem_less_fuel _ fuel). }
  exists v'. unfold size in *. auto 10.
Qed.

Lemma updated_on_well_formed_trie_witness :
  well_formed scenarioResult /\
  (Z.to_nat (depth scenarioResult) < 2)%nat /\
  0 <= 5 < size scenarioResult /\
  exists v', updated 2 scenarioResult 5 99 = Ret v' /\
    well_formed v' /\
    size v' = size scenarioResult /\ depth v' = depth scenarioResult /\
    length (tail v') = length (tail scenarioResult) /\
    apply 2 v' 5 = Ret 99 /\
    forall j, j <> 5 -> 0 <= j < size scenarioResult ->
      exists y, apply 2 scenarioResult j = Ret y /\ apply 2 v' j = Ret y.
Proof.
  assert (Z.to_nat (depth scenarioResult) < 2)%nat as Hfuel by (vm_compute; lia).
  assert (0 <= 5 < size scenarioResult) as Hi by (vm_compute; split; congruence).
  split; [exact scenarioResult_well_formed|]. split; [exact Hfuel|].
  split; [exact Hi|].
  exact (updated_on_well_formed_trie scenarioResult 99 5 2
           scenarioResult_well_formed Hfuel Hi).
Defined.

End TrieExtras.

(** ** Further properties of the array-backed Vector *)

Section ArrayExtras.

Import ArrayVector.

Lemma ArrayVector_index_in {A} (v : Vector A) (i : Z) :
  0 <= i < size v -> exists x, data v !! Z.to_nat i = Some x /\ JS.index (data v) i = Some x.
Proof.
  unfold size, JS.length. intros Hi.
  destruct (lookup_lt_is_Some_2 (data v) (Z.to_nat i) ltac:(lia)) as [x Hx].
  exists x. split; [exact Hx|]. by rewrite index_nonneg by lia.
Qed.

(** X12. Array-backed Vector: apply throws the out-of-bounds error exactly
    on an index outside [0, size) and returns the element otherwise; get
    returns None outside the range and on a null or undefined element, and
    the element in a Some otherwise; neither raises anything else. *)
Theorem ArrayVector_apply_and_get {A} `{JS.Nullish A} (v : Vector A) (i : Z) :
  (apply v i = Throw (IndexOutOfBounds i) <-> i < 0 \/ i >= size v) /\
  (i < 0 \/ i >= size v -> get v i = Ret Option.None) /\
  (0 <= i < size v ->
   exists x, toArray v !! Z.to_nat i = Some x /\
     apply v i = Ret x /\
     get v i = Ret (if JS.is_nullish x then Option.None else Option.SomeImpl x)).
Proof.
  assert (0 <= i < size v ->
   exists x, toArray v !! Z.to_nat i = Some x /\
     apply v i = Ret x /\
     get v i = Ret (if JS.is_nullish x then Option.None else Option.SomeImpl x)) as Hin.
  { intros Hi. destruct (ArrayVector_index_in v i Hi) as (x & Hx & Hix).
    exists x. unfold apply, get, toArray, size in *.
    destruct (Z.ltb_spec i 0), (Z.geb_spec i (JS.length (data v))); try lia.
    cbn [orb]. rewrite Hix, Some_spec. done. }
  split; [|split; [|exact Hin]].
  - split.
    + intros Happ. destruct (decide (0 <= i < size v)) as [Hi|Hi]; [|lia].
      destruct (Hin Hi) as (x & _ & Hx & _). congruence.
    + intros Hi. unfold apply, size in *.
      destruct (Z.ltb_spec i 0), (Z.geb_spec i (JS.length (data v)));
        try lia; reflexivity.
  - intros Hi. unfold get, size in *.
    destruct (Z.ltb_spec i 0), (Z.geb_spec i (JS.length (data v)));
      try lia; reflexivity.
Qed.

Lemma ArrayVector_apply_and_get_witness :
  0 <= 1 < size (MkVector [JS.just 1; JS.null; JS.just 3]) /\
  get (MkVector [JS.just 1; JS.null; JS.just 3]) 1 = Ret Option.None /\
  apply (MkVector [JS.just 1; JS.null; JS.just 3]) 1 = Ret JS.null.
Proof.
  assert (0 <= 1 < size (MkVector [JS.just 1; JS.null; JS.just 3])) as Hi.
  { unfold size, JS.length; simpl; lia. }
  split; [exact Hi|].
  destruct (proj2 (proj2 (ArrayVector_apply_and_get
                            (MkVector [JS.just 1; JS.null; JS.just 3]) 1)) Hi)
    as (x & Hx & Happ & Hget).
  injection Hx as <-. split; [exact Hget | exact Happ].
Defined.

(** X13. Array-backed Vector: updated at an index in range returns a Vector
    of the same size that reads the new element there and reads every other
    index as before; the receiver is unchanged. *)
Theorem ArrayVector_updated_then_apply {A} (v : Vector A) (x : A) (i : Z) :
  0 <= i < size v ->
  size (updated v i x) = size v /\
  apply (updated v i x) i = Ret x /\
  (forall j, j <> i -> apply (updated v i x) j = apply v j) /\
  toArray (updated v i x) = <[Z.to_nat i := x]> (toArray v).
Proof.
  intros Hi. unfold updated, size in *.
  destruct (Z.ltb_spec i 0), (Z.geb_spec i (JS.length (data v))); try lia.
  cbn [orb]. unfold apply, toArray. cbn [data].
  assert (JS.length (<[Z.to_nat i := x]> (data v)) = JS.length (data v)) as Hlen.
  { unfold JS.length. by rewrite length_insert. }
  rewrite Hlen. repeat apply conj; try reflexivity.
  - destruct (Z.ltb_spec i 0), (Z.geb_spec i (JS.length (data v))); try lia.
    cbn [orb]. rewrite index_nonneg, list_lookup_insert_eq; [done| |lia].
    unfold JS.length in *. lia.
  - intros j Hne.
    destruct (Z.ltb_spec j 0), (Z.geb_spec j (JS.length (data v))); try reflexivity.
    cbn [orb]. by rewrite !index_nonneg, list_lookup_insert_ne by lia.
Qed.

Lemma ArrayVector_updated_then_apply_witness :
  0 <= 2 < size (MkVector [1; 2; 3; 4; 5]) /\
  apply (updated (MkVector [1; 2; 3; 4; 5]) 2 10) 2 = Ret 10.
Proof.
  assert (0 <= 2 < size (MkVector [1; 2; 3; 4; 5])) as Hi.
  { unfold size, JS.length; simpl; lia. }
  split; [exact Hi|].
  exact (proj1 (proj2 (ArrayVector_updated_then_apply (MkVector [1; 2; 3; 4; 5]) 10 2 Hi))).
Defined.

Lemma Vector_eta {A} (v : Vector A) : MkVector (data v) = v.
Proof. by destruct v. Qed.

(** X14. Array-backed Vector: appendAll is associative with the empty
    Vector as unit on both sides, sizes add up, and appended and prepended
    are appendAll with a one-element Vector. *)
Theorem ArrayVector_appendAll_laws {A} (u v w : Vector A) (x : A) :
  appendAll (appendAll u v) w = appendAll u (appendAll v w) /\
  appendAll empty v = v /\ appendAll v empty = v /\
  size (appendAll u v) = size u + size v /\
  appended v x = appendAll v (of_ [x]) /\
  prepended v x = appendAll (of_ [x]) v /\
  toArray (appendAll u v) = toArray u ++ toArray v.
Proof.
  unfold appendAll, appended, prepended, empty, of_, size, toArray, JS.length.
  cbn [data app]. repeat apply conj; try reflexivity.
  - by rewrite app_assoc.
  - apply Vector_eta.
  - rewrite app_nil_r. apply Vector_eta.
  - rewrite length_app. lia.
Qed.

(** X15. Array-backed Vector: flatMap is the concatenation of the Vectors
    the callback returns; flatMap with one-element results is map, flatMap
    is associative, and map and filter go through appendAll. *)
Theorem ArrayVector_flatMap_laws {A B C} (u v : Vector A) (f : A -> Vector B)
  (g : B -> Vector C) (h : A -> B) (p : A -> bool) :
  toArray (flatMap v f) = concat ((fun a => toArray (f a)) <$> toArray v) /\
  flatMap v (fun a => of_ [h a]) = map v h /\
  flatMap v (fun a => of_ [a]) = v /\
  flatMap (flatMap v f) g = flatMap v (fun a => flatMap (f a) g) /\
  map (appendAll u v) h = appendAll (map u h) (map v h) /\
  filter (appendAll u v) p = appendAll (filter u p) (filter v p) /\
  flatMap (appendAll u v) f = appendAll (flatMap u f) (flatMap v f).
Proof.
  unfold flatMap, map, filter, appendAll, of_, toArray. cbn [data].
  rewrite !fold_left_concat. cbn [app].
  repeat apply conj.
  - reflexivity.
  - f_equal. induction (data v) as [|a l IH]; cbn; [done | by rewrite IH].
  - rewrite <- (Vector_eta v) at 2. f_equal.
    induction (data v) as [|a l IH]; cbn; [done | by rewrite IH].
  - f_equal. induction (data v) as [|a l IH]; cbn; [done|].
    rewrite fmap_app, concat_app, IH. f_equal. by rewrite fold_left_concat.
  - by rewrite fmap_app.
  - by rewrite List.filter_app.
  - by rewrite fmap_app, concat_app.
Qed.

End ArrayExtras.

(** ** Properties of Option *)

Section OptionExtras.

Import Option OptionOps.

(** X16. Whatever the value, Some and Option.fromNullable return without
    raising: None on null and undefined, a SomeImpl around the value
    otherwise.  The SomeImpl constructor raises exactly on null and
    undefined, and no Option that Some, fromNullable, map, mapOr or tryCatch
    returns holds one of them. *)
Theorem Option_producers_hold_no_nullish {A B} `{JS.Nullish A} `{JS.Nullish B}
  (x : A) (o : Option A) (d : B) (f : A -> B) :
  Some x = Ret (if JS.is_nullish x then NoneImpl else SomeImpl x) /\
  fromNullable x = Some x /\
  (newSomeImpl x = Throw SomeOfNullish <-> JS.is_nullish x = true) /\
  (exists r, Some x = Ret r /\ valid r) /\
  (exists r, map o f = Ret r /\ valid r) /\
  (exists r, mapOr o d f = Ret r /\ valid r) /\
  (exists r, tryCatch (Ret x) = Ret r /\ valid r) /\
  (forall e, tryCatch (A := A) (Throw e) = Ret None).
Proof.
  assert (forall (T : Type) (N : JS.Nullish T) (t : T),
            exists r, Some t = Ret r /\ valid r) as Hsome.
  { intros T N t. rewrite Some_spec. eexists. split; [reflexivity|].
    unfold valid. by destruct (JS.is_nullish t) eqn:Ht. }
  repeat apply conj.
  - apply Some_spec.
  - unfold fromNullable, Some. by destruct (JS.is_nullish x).
  - unfold newSomeImpl. by destruct (JS.is_nullish x).
  - unfold newSomeImpl. by destruct (JS.is_nullish x).
  - apply Hsome.
  - destruct o as [a|]; cbn [map]; [apply Hsome|]. by exists NoneImpl.
  - destruct o as [a|]; cbn [mapOr]; apply Hsome.
  - cbn [tryCatch]. destruct (Hsome A _ x) as (r & -> & Hr). by exists r.
  - reflexivity.
Qed.

(** X17. Option.map keeps a valid Option under the identity, and mapping f
    and then g is mapping their composition except in one case: when f
    returns null or undefined and g would turn that into a value, the
    chain gives None and the composition gives a Some. *)
Theorem Option_map_composition {A B C} `{JS.Nullish A} `{JS.Nullish B} `{JS.Nullish C}
  (o : Option A) (f : A -> B) (g : B -> C) :
  (valid o -> map o id = Ret o) /\
  (o = NoneImpl -> (o' ← map o f; map o' g) = map o (g ∘ f)) /\
  (forall x, o = SomeImpl x ->
     ((o' ← map o f; map o' g) = map o (g ∘ f) <->
      JS.is_nullish (f x) = false \/ JS.is_nullish (g (f x)) = true)) /\
  (forall x, o = SomeImpl x ->
     JS.is_nullish (f x) = true -> JS.is_nullish (g (f x)) = false ->
     (o' ← map o f; map o' g) = Ret None /\
     map o (g ∘ f) = Ret (SomeImpl (g (f x)))).
Proof.
  split; [|split; [|split]].
  - destruct o as [a|]; cbn [map valid]; [|done].
    intros Ha. unfold id. by rewrite Some_spec, Ha.
  - by intros ->.
  - intros x ->. cbn [map compose]. rewrite !Some_spec.
    destruct (JS.is_nullish (f x)) eqn:Hf; cbn [mbind outcome_bind map];
      rewrite ?Some_spec; destruct (JS.is_nullish (g (f x))) eqn:Hg;
      unfold None; split; intros Hyp; try reflexivity; try discriminate;
      try (left; reflexivity); try (right; reflexivity);
      destruct Hyp; discriminate.
  - intros x -> Hf Hg. cbn [map compose]. rewrite !Some_spec, Hf, Hg. done.
Qed.

Lemma Option_map_composition_witness :
  SomeImpl 1 = SomeImpl 1 /\
  JS.is_nullish (@JS.null Z) = true /\ JS.is_nullish (2 : Z) = false /\
  (o' ← map (SomeImpl 1) (fun _ : Z => @JS.null Z); map o' (fun _ => 2))
    = Ret None /\
  map (SomeImpl 1) ((fun _ : JS.nullable Z => 2) ∘ (fun _ : Z => @JS.null Z))
    = Ret (SomeImpl 2).
Proof.
  split; [reflexivity|]. split; [reflexivity|]. split; [reflexivity|].
  exact (proj2 (proj2 (proj2 (Option_map_composition (SomeImpl 1)
           (fun _ : Z => @JS.null Z) (fun _ => 2)))) 1 eq_refl eq_refl eq_refl).
Defined.

(** X18. Option.flatMap with Some obeys the monad laws on values that are
    not null or undefined: Some(x).flatMap(f) is f(x), o.flatMap(Some) is
    o for a valid o, flatMap is associative, and map is flatMap with Some
    after the callback.  On null and undefined Some(x).flatMap(f) is None
    without f being called. *)
Theorem Option_flatMap_laws {A B C} `{JS.Nullish A} `{JS.Nullish B}
  (x : A) (o : Option A) (f : A -> outcome (Option B))
  (g : B -> outcome (Option C)) (h : A -> B) :
  (JS.is_nullish x = false -> (s ← Some x; flatMap s f) = f x) /\
  (JS.is_nullish x = true -> (s ← Some x; flatMap s f) = Ret None) /\
  (valid o -> flatMap o Some = Ret o) /\
  (o' ← flatMap o f; flatMap o' g) = flatMap o (fun a => o' ← f a; flatMap o' g) /\
  map o h = flatMap o (fun a => Some (h a)).
Proof.
  repeat apply conj.
  - intros Hx. by rewrite Some_spec, Hx.
  - intros Hx. by rewrite Some_spec, Hx.
  - destruct o as [a|]; cbn [flatMap valid]; [|done].
    intros Ha. by rewrite Some_spec, Ha.
  - by destruct o.
  - by destruct o.
Qed.

Lemma Option_flatMap_laws_witness :
  JS.is_nullish (5 : Z) = false /\
  (s ← Some 5; flatMap s (fun a => Some (a + 1))) = Some (5 + 1).
Proof.
  split; [reflexivity|].
  exact (proj1 (Option_flatMap_laws 5 (SomeImpl 5) (fun a => Some (a + 1))
                  (fun b : Z => Some b) id) eq_refl).
Defined.

(** X19. Option.filter keeps exactly the value that satisfies the
    predicate: its toArray is the filtered toArray, two filters are one
    filter with both predicates, and a valid Option stays valid.  orElse is
    associative with None as unit, and getOrElse reads through it. *)
Theorem Option_filter_and_orElse_laws {A} `{JS.Nullish A} (o a b : Option A)
  (p q : A -> bool) (d : A) :
  toArray (filter o p) = List.filter p (toArray o) /\
  filter (filter o p) q = filter o (fun x => p x && q x) /\
  (valid o -> valid (filter o p)) /\
  orElse (orElse o a) b = orElse o (orElse a b) /\
  orElse None o = o /\ orElse o None = o /\
  getOrElse (orElse o a) d = getOrElse o (getOrElse a d).
Proof.
  repeat apply conj; try (by destruct o).
  - destruct o as [x|]; cbn; [|done]. by destruct (p x).
  - destruct o as [x|]; cbn; [|done].
    destruct (p x) eqn:Hp; cbn; rewrite ?Hp; by destruct (q x).
  - destruct o as [x|]; cbn; [|done]. by destruct (p x).
Qed.

Lemma Option_filter_and_orElse_laws_witness :
  valid (SomeImpl 4) /\ valid (filter (SomeImpl 4) Z.even).
Proof.
  assert (valid (SomeImpl 4)) as Hv by reflexivity.
  split; [exact Hv|].
  exact (proj1 (proj2 (proj2 (Option_filter_and_orElse_laws (SomeImpl 4) None None
                                Z.even Z.odd 0))) Hv).
Defined.

(** X20. Option.firstSome returns the first Some of the list: None exactly
    when every entry is None, and otherwise the entry before which all
    entries are None. *)
Theorem Option_firstSome_is_first {A} (options : list (Option A)) :
  toArray (firstSome options) = take 1 (concat (toArray <$> options)) /\
  (firstSome options = NoneImpl <-> Forall (fun o => o = NoneImpl) options) /\
  (forall x, firstSome options = SomeImpl x ->
     exists before after, options = before ++ SomeImpl x :: after /\
       Forall (fun o => o = NoneImpl) before).
Proof.
  split; [|split].
  - induction options as [|[x|] rest IH]; cbn; [done | done | exact IH].
  - induction options as [|[x|] rest IH]; cbn.
    + split; [constructor | done].
    + split; [done | by inversion 1].
    + rewrite IH. split; [by constructor | by inversion 1].
  - induction options as [|[y|] rest IH]; cbn; intros x Hx.
    + discriminate.
    + injection Hx as ->. by exists [], rest.
    + destruct (IH x Hx) as (before & after & -> & Hb).
      exists (NoneImpl :: before), after. split; [done | by constructor].
Qed.

Lemma Option_firstSome_is_first_witness :
  firstSome [NoneImpl; SomeImpl 7; SomeImpl 8] = SomeImpl 7 /\
  exists before after, [NoneImpl; SomeImpl 7; SomeImpl 8] = before ++ SomeImpl 7 :: after /\
    Forall (fun o : Option Z => o = NoneImpl) before.
Proof.
  assert (firstSome [NoneImpl; SomeImpl 7; SomeImpl 8] = SomeImpl 7) as Hx by reflexivity.
  split; [exact Hx|].
  exact (proj2 (proj2 (Option_firstSome_is_first [NoneImpl; SomeImpl 7; SomeImpl 8])) 7 Hx).
Defined.

Lemma sequenceFrom_spec {A} (e : error) (options : list (Option A)) (values : list A) :
  sequenceFrom e options values =
    Ret (if forallb isSome options
         then SomeImpl (values ++ concat (toArray <$> options))
         else NoneImpl).
Proof.
  revert values. induction options as [|[x|] rest IH]; intros values; cbn.
  - by rewrite app_nil_r.
  - rewrite IH. by rewrite <- app_assoc.
  - reflexivity.
Qed.

(** X21. Option.sequence never raises: it returns None when some entry is
    None and otherwise a Some around the values of the entries in order;
    on a list of Somes it gives back the list of values. *)
Theorem Option_sequence_all_or_none {A} (e : error) (options : list (Option A))
  (xs : list A) :
  sequence e options =
    Ret (if forallb isSome options
         then SomeImpl (concat (toArray <$> options))
         else NoneImpl) /\
  (sequence e options = Ret NoneImpl <-> Exists (fun o => o = NoneImpl) options) /\
  sequence e (SomeImpl <$> xs) = Ret (SomeImpl xs).
Proof.
  unfold sequence. rewrite !sequenceFrom_spec. cbn [app].
  split; [|split].
  - reflexivity.
  - induction options as [|[x|] rest IH]; cbn.
    + split; [done | by inversion 1].
    + destruct (forallb isSome rest).
      * split; [done|]. inversion 1 as [? ? Hx|? ? Hr]; [done|]. by apply IH in Hr.
      * split; [|done]. intros _. apply Exists_cons_tl. by apply IH.
    + split; [|done]. intros _. by apply Exists_cons_hd.
  - induction xs as [|x xs IH]; cbn; [done|].
    destruct (forallb isSome (SomeImpl <$> xs)); [|done].
    injection IH as IH. by rewrite IH.
Qed.

Lemma mapCalls_Some {A B} `{JS.Nullish B} (g : A -> B) (values : list A) :
  mapCalls (fun a => Some (g a)) values =
    Ret ((fun a => if JS.is_nullish (g a) then NoneImpl else SomeImpl (g a)) <$> values).
Proof.
  induction values as [|a rest IH]; cbn; [done|].
  by rewrite Some_spec, IH.
Qed.

(** X22. Option.traverse with a callback that wraps g in Some returns the
    Some of all images when no image is null or undefined, and None as soon
    as one is; it never raises. *)
Theorem Option_traverse_Some {A B} `{JS.Nullish B} (e : error) (g : A -> B)
  (values : list A) :
  traverse e values (fun a => Some (g a)) =
    Ret (if existsb (fun a => JS.is_nullish (g a)) values
         then NoneImpl else SomeImpl (g <$> values)).
Proof.
  unfold traverse, sequence. rewrite mapCalls_Some, bind_Ret, sequenceFrom_spec.
  f_equal. cbn [app].
  induction values as [|a rest IH]; cbn; [done|].
  destruct (JS.is_nullish (g a)); cbn; [done|].
  destruct (forallb _ _), (existsb _ _); try done.
  by injection IH as ->.
Qed.

End OptionExtras.

(** ** The two classes side by side: instances *)

Section RefinementWitnesses.

Import TrieVector Reach.

Lemma observations_agree_witness :
  reachable (MkVector (MkNode []) [1; 2; 3] 0 3) /\
  toArray 0 (MkVector (MkNode []) [1; 2; 3] 0 3) =
    Ret (ArrayVector.toArray (toArrayVector (MkVector (MkNode []) [1; 2; 3] 0 3))).
Proof.
  assert (reachable (MkVector (MkNode []) [1; 2; 3] 0 3)) as Hreach.
  { apply (reach_of 0 [1; 2; 3]). reflexivity. }
  split; [exact Hreach|].
  exact (proj1 (proj2 (proj2 (observations_agree _ 0%nat Hreach)))).
Defined.

Lemma operations_agree_when_returning_witness :
  reachable (MkVector (MkNode []) [1; 2; 3] 0 3) /\
  appended 0 (MkVector (MkNode []) [1; 2; 3] 0 3) 4
    = Ret (MkVector (MkNode []) [1; 2; 3; 4] 0 4) /\
  toArrayVector (MkVector (MkNode []) [1; 2; 3; 4] 0 4) =
    ArrayVector.appended (toArrayVector (MkVector (MkNode []) [1; 2; 3] 0 3)) 4.
Proof.
  assert (reachable (MkVector (MkNode []) [1; 2; 3] 0 3)) as Hreach.
  { apply (reach_of 0 [1; 2; 3]). reflexivity. }
  assert (appended 0 (MkVector (MkNode []) [1; 2; 3] 0 3) 4
            = Ret (MkVector (MkNode []) [1; 2; 3; 4] 0 4)) as Happ by reflexivity.
  split; [exact Hreach|]. split; [exact Happ|].
  exact (proj1 (proj2 (operations_agree_when_returning _ _ 0%nat Hreach Hreach))
           4 _ Happ).
Defined.

End RefinementWitnesses.
